(** * react-native-dynamic-font-scaling: font-scale reading and theme derivation

    A shallow embedding of [src/hooks/useFontScale.ts], [src/theme/theme.ts],
    [src/theme/ThemeProvider.tsx] and of the Android [FontScaleModule.kt].

    JavaScript numbers are IEEE-754 binary64 values.  They are modelled by
    [spec_float] at precision 53 and exponent bound 1024, with the operations
    the code uses ([Math.min], [Math.max], [Math.round], [*], [/], unary [-],
    [===]) written out on that representation. *)

From Stdlib Require Import ZArith Lia Bool List String.
From Stdlib Require Import Floats.SpecFloat.
From stdpp Require Import gmap strings.

Local Open Scope Z_scope.

(** ** Well-formed doubles *)

Definition SF_is_nan (x : spec_float) : bool :=
  match x with S754_nan => true | _ => false end.

Definition SF_is_finite (x : spec_float) : bool :=
  match x with S754_finite _ _ _ | S754_zero _ => true | _ => false end.

(** [spec_float] also holds mantissa/exponent pairs that denote no double;
    [valid_binary] singles out the canonical ones. *)
Definition numeric (prec emax : Z) (x : spec_float) : bool :=
  valid_binary prec emax x && negb (SF_is_nan x).

Definition finite (prec emax : Z) (x : spec_float) : bool :=
  valid_binary prec emax x && SF_is_finite x.

(** ** JavaScript numbers *)

Module JS.

Definition prec : Z := 53.
Definition emax : Z := 1024.

Abbreviation number := spec_float.

Definition NaN : number := S754_nan.

(** A double other than NaN, and a finite double ([Number.isFinite]). *)
Definition is_number (x : number) : bool := numeric prec emax x.
Definition is_finite (x : number) : bool := finite prec emax x.

Definition mul (x y : number) : number := SFmul prec emax x y.
Definition div (x y : number) : number := SFdiv prec emax x y.
Definition neg (x : number) : number := SFopp x.

(** [x === y], [x <= y] and [x < y] on numbers (all false on NaN). *)
Definition strict_eq (x y : number) : bool := SFeqb x y.
Definition leb (x y : number) : bool := SFleb x y.
Definition ltb (x y : number) : bool := SFltb x y.

(** An integer, and a decimal literal [n / 10^k], as the nearest double. *)
Definition of_Z (n : Z) : number := binary_normalize prec emax n 0 false.
Definition dec (n : Z) (k : Z) : number := div (of_Z n) (of_Z (10 ^ k)).

Definition is_neg_zero (x : number) : bool :=
  match x with S754_zero true => true | _ => false end.

(** [Math.max] and [Math.min]: NaN if either argument is NaN, and [-0] is
    smaller than [+0]. *)
Definition Math_max (x y : number) : number :=
  match SFcompare x y with
  | None => NaN
  | Some Lt => y
  | Some Gt => x
  | Some Eq => if is_neg_zero x then y else x
  end.

Definition Math_min (x y : number) : number :=
  match SFcompare x y with
  | None => NaN
  | Some Lt => x
  | Some Gt => y
  | Some Eq => if is_neg_zero y then y else x
  end.

(** [Math.round]: the integer nearest to [x], ties towards +infinity, that is
    [floor (x + 1/2)] computed exactly; integral values, infinities, zeros and
    NaN are returned as they are, and a zero result keeps the sign of [x]. *)
Definition Math_round (x : number) : number :=
  match x with
  | S754_finite s m e =>
      if 0 <=? e then x
      else
        let n := (cond_Zopp s (Zpos m) + 2 ^ (- e - 1)) / 2 ^ (- e) in
        if n =? 0 then S754_zero s else of_Z n
  | _ => x
  end.

End JS.

Import JS.

Declare Scope js_scope.
Delimit Scope js_scope with js.
Bind Scope js_scope with spec_float.
Infix "*" := JS.mul : js_scope.
Infix "/" := JS.div : js_scope.
Notation "- x" := (JS.neg x) : js_scope.
Infix "===" := JS.strict_eq (at level 70, no associativity) : js_scope.
Infix "<=?" := JS.leb : js_scope.
Infix "<?" := JS.ltb : js_scope.

(** ** src/theme/theme.ts *)

Module Theme.

Record Sizes := {
  xs : number; sm : number; md : number; lg : number; xl : number;
  _2xl : number; _3xl : number; _4xl : number; _5xl : number; _6xl : number
}.

Definition baseFontSizes : Sizes := {|
  xs := of_Z 10; sm := of_Z 12; md := of_Z 14; lg := of_Z 16; xl := of_Z 18;
  _2xl := of_Z 20; _3xl := of_Z 24; _4xl := of_Z 30; _5xl := of_Z 36;
  _6xl := of_Z 48
|}.

(** [Object.entries(baseSpacing)], in source order. *)
Definition baseSpacing : list (string * number) :=
  [ ("none", of_Z 0); ("xs", of_Z 4); ("sm", of_Z 8); ("md", of_Z 12);
    ("lg", of_Z 16); ("xl", of_Z 20); ("2xl", of_Z 24); ("3xl", of_Z 32);
    ("4xl", of_Z 40); ("5xl", of_Z 48); ("6xl", of_Z 64) ]%string.

Record LineHeightMultipliers := {
  tight : number; normal : number; relaxed : number
}.

Definition lineHeightMultipliers : LineHeightMultipliers := {|
  tight := dec 12 1; normal := dec 15 1; relaxed := dec 175 2
|}.

Inductive Category := heading | body | button | caption | spacing.

Definition scaleCaps (c : Category) : number :=
  match c with
  | heading => dec 14 1
  | body => dec 20 1
  | button => dec 13 1
  | caption => dec 18 1
  | spacing => dec 15 1
  end.

Definition applyScale (baseValue fontScale cap : number) : number :=
  let effectiveScale := Math_min fontScale cap in
  Math_round (baseValue * effectiveScale)%js.

Definition createScaledFontSizes (fontScale : number) : Sizes := {|
  xs := applyScale (xs baseFontSizes) fontScale (scaleCaps caption);
  sm := applyScale (sm baseFontSizes) fontScale (scaleCaps caption);
  md := applyScale (md baseFontSizes) fontScale (scaleCaps body);
  lg := applyScale (lg baseFontSizes) fontScale (scaleCaps body);
  xl := applyScale (xl baseFontSizes) fontScale (scaleCaps heading);
  _2xl := applyScale (_2xl baseFontSizes) fontScale (scaleCaps heading);
  _3xl := applyScale (_3xl baseFontSizes) fontScale (scaleCaps heading);
  _4xl := applyScale (_4xl baseFontSizes) fontScale (scaleCaps heading);
  _5xl := applyScale (_5xl baseFontSizes) fontScale (scaleCaps heading);
  _6xl := applyScale (_6xl baseFontSizes) fontScale (scaleCaps heading)
|}.

(** [createScaledSpacing]: the loop over [Object.entries(baseSpacing)] writes
    one property per entry; the six negative keys are then written from the
    properties already present. *)
Definition scaleEntry (fontScale : number) (scaledSpacing : gmap string number)
    (entry : string * number) : gmap string number :=
  let '(key, value) := entry in
  if (value === of_Z 0)%js
  then <[key := of_Z 0]> scaledSpacing
  else <[key := applyScale value fontScale (scaleCaps spacing)]> scaledSpacing.

(** Reading a property: an absent one is [undefined], which unary minus
    turns into NaN. *)
Definition negated (scaledSpacing : gmap string number) (key : string) : number :=
  match scaledSpacing !! key with
  | Some v => (- v)%js
  | None => NaN
  end.

Definition createScaledSpacing (fontScale : number) : gmap string number :=
  let scaledSpacing := foldl (scaleEntry fontScale) ∅ baseSpacing in
  let scaledSpacing := <["-xs" := negated scaledSpacing "xs"]> scaledSpacing in
  let scaledSpacing := <["-sm" := negated scaledSpacing "sm"]> scaledSpacing in
  let scaledSpacing := <["-md" := negated scaledSpacing "md"]> scaledSpacing in
  let scaledSpacing := <["-lg" := negated scaledSpacing "lg"]> scaledSpacing in
  let scaledSpacing := <["-xl" := negated scaledSpacing "xl"]> scaledSpacing in
  let scaledSpacing := <["-2xl" := negated scaledSpacing "2xl"]> scaledSpacing in
  scaledSpacing.

(** A text variant; only the two numeric properties are kept (the colour,
    weight and decoration strings do not depend on the scale). *)
Record TextVariant := { fontSize : number; lineHeight : number }.

Record ScaledTheme := {
  theme_spacing : gmap string number;
  textVariants : list (string * TextVariant)
}.

Definition createScaledTheme (fontScale : number) : ScaledTheme :=
  let fontSizes := createScaledFontSizes fontScale in
  let spacing := createScaledSpacing fontScale in
  {| theme_spacing := spacing;
     textVariants :=
       [ ("defaults",
          {| fontSize := md fontSizes;
             lineHeight := Math_round (md fontSizes * normal lineHeightMultipliers)%js |});
         ("h1",
          {| fontSize := _6xl fontSizes;
             lineHeight := Math_round (_6xl fontSizes * tight lineHeightMultipliers)%js |});
         ("h2",
          {| fontSize := _5xl fontSizes;
             lineHeight := Math_round (_5xl fontSizes * tight lineHeightMultipliers)%js |});
         ("h3",
          {| fontSize := _4xl fontSizes;
             lineHeight := Math_round (_4xl fontSizes * tight lineHeightMultipliers)%js |});
         ("h4",
          {| fontSize := _3xl fontSizes;
             lineHeight := Math_round (_3xl fontSizes * tight lineHeightMultipliers)%js |});
         ("h5",
          {| fontSize := _2xl fontSizes;
             lineHeight := Math_round (_2xl fontSizes * tight lineHeightMultipliers)%js |});
         ("h6",
          {| fontSize := xl fontSizes;
             lineHeight := Math_round (xl fontSizes * tight lineHeightMultipliers)%js |});
         ("body",
          {| fontSize := md fontSizes;
             lineHeight := Math_round (md fontSizes * normal lineHeightMultipliers)%js |});
         ("bodyLarge",
          {| fontSize := lg fontSizes;
             lineHeight := Math_round (lg fontSizes * normal lineHeightMultipliers)%js |});
         ("bodySmall",
          {| fontSize := sm fontSizes;
             lineHeight := Math_round (sm fontSizes * normal lineHeightMultipliers)%js |});
         ("button",
          {| fontSize := applyScale (md baseFontSizes) fontScale (scaleCaps button);
             lineHeight :=
               Math_round (applyScale (md baseFontSizes) fontScale (scaleCaps button)
                           * normal lineHeightMultipliers)%js |});
         ("buttonLarge",
          {| fontSize := applyScale (lg baseFontSizes) fontScale (scaleCaps button);
             lineHeight :=
               Math_round (applyScale (lg baseFontSizes) fontScale (scaleCaps button)
                           * normal lineHeightMultipliers)%js |});
         ("buttonSmall",
          {| fontSize := applyScale (sm baseFontSizes) fontScale (scaleCaps button);
             lineHeight :=
               Math_round (applyScale (sm baseFontSizes) fontScale (scaleCaps button)
                           * normal lineHeightMultipliers)%js |});
         ("caption",
          {| fontSize := xs fontSizes;
             lineHeight := Math_round (xs fontSizes * normal lineHeightMultipliers)%js |});
         ("captionMedium",
          {| fontSize := sm fontSizes;
             lineHeight := Math_round (sm fontSizes * normal lineHeightMultipliers)%js |});
         ("label",
          {| fontSize := sm fontSizes;
             lineHeight := Math_round (sm fontSizes * normal lineHeightMultipliers)%js |});
         ("labelLarge",
          {| fontSize := md fontSizes;
             lineHeight := Math_round (md fontSizes * normal lineHeightMultipliers)%js |});
         ("link",
          {| fontSize := md fontSizes;
             lineHeight := Math_round (md fontSizes * normal lineHeightMultipliers)%js |})
       ]%string |}.

Definition defaultTheme : ScaledTheme := createScaledTheme (of_Z 1).

End Theme.

(** ** Exceptions and console output

    A JavaScript computation either returns a value or throws, and writes
    lines to the console on the way. *)

Inductive outcome (A : Type) : Type :=
  | Returns (a : A)
  | Throws (error : string).
Arguments Returns {A} a.
Arguments Throws {A} error.

Inductive ConsoleEntry :=
  | Warn (message : string)
  | Log (message : string).

Definition M (A : Type) : Type := (outcome A * list ConsoleEntry)%type.

Definition call {A} (o : outcome A) : M A := (o, []).

#[global] Instance M_ret : MRet M := fun A a => (Returns a, []).

#[global] Instance M_bind : MBind M := fun A B f m =>
  match m with
  | (Returns a, out) => let '(r, out') := f a in (r, out ++ out')
  | (Throws e, out) => (Throws e, out)
  end.

Definition try_catch {A} (m : M A) (handler : string -> M A) : M A :=
  match m with
  | (Returns a, out) => (Returns a, out)
  | (Throws e, out) => let '(r, out') := handler e in (r, out ++ out')
  end.

Definition console_warn (message : string) : M unit := (Returns tt, [Warn message]).
Definition console_log (message : string) : M unit := (Returns tt, [Log message]).

(** ** android/.../FontScaleModule.kt *)

Module FontScaleModule_kt.

(** What the Android side can observe: the font scale of the current
    activity's configuration ([None] when a link of the [?.] chain is null)
    and that of the application context; either read may throw. *)
Record ReactApplicationContext := {
  currentActivity_fontScale : outcome (option number);
  resources_fontScale : outcome number
}.

Definition readFontScale (ctx : ReactApplicationContext) : outcome number :=
  match currentActivity_fontScale ctx with
  | Returns (Some fontScale) => Returns fontScale
  | Returns None => resources_fontScale ctx
  | Throws e => Throws e
  end.

(** [getFontScale(promise)]: the promise is always resolved. *)
Definition getFontScale (ctx : ReactApplicationContext) : outcome number :=
  match readFontScale ctx with
  | Returns fontScale => Returns fontScale
  | Throws _ => Returns (of_Z 1)
  end.

Definition getFontScaleSync (ctx : ReactApplicationContext) : outcome number :=
  match readFontScale ctx with
  | Returns fontScale => Returns fontScale
  | Throws _ => Returns (of_Z 1)
  end.

End FontScaleModule_kt.

(** ** src/hooks/useFontScale.ts *)

Module Hooks.

Inductive OS := android | ios | web.

(** [NativeModules.FontScaleModule]: each method may be absent; when present
    it is given by what a call yields (for [getFontScale], what awaiting the
    promise yields: a rejection is a throw). *)
Record FontScaleModuleInterface := {
  native_getFontScale : option (outcome number);
  native_getFontScaleSync : option (outcome number)
}.

(** The platform as one read of it sees it. *)
Record Platform := {
  Platform_OS : OS;
  FontScaleModule : option FontScaleModuleInterface;
  PixelRatio_getFontScale : outcome number
}.

Definition is_android (os : OS) : bool :=
  match os with android => true | _ => false end.

Definition getNativeFontScale (env : Platform) : M number :=
  match is_android (Platform_OS env), FontScaleModule env ≫= native_getFontScale with
  | true, Some getFontScale =>
      try_catch (call getFontScale)
        (fun error =>
           console_warn "FontScaleModule.getFontScale() failed, falling back to PixelRatio:";;
           call (PixelRatio_getFontScale env))
  | _, _ => call (PixelRatio_getFontScale env)
  end.

Definition getFontScaleSync (env : Platform) : M number :=
  match is_android (Platform_OS env), FontScaleModule env ≫= native_getFontScaleSync with
  | true, Some getFontScaleSync =>
      try_catch (call getFontScaleSync)
        (fun _ => call (PixelRatio_getFontScale env))
  | _, _ => call (PixelRatio_getFontScale env)
  end.

Definition getCachedFontScale (env : Platform) : M number :=
  call (PixelRatio_getFontScale env).

Definition clamp (value min max : number) : number :=
  Math_min (Math_max value min) max.

Record UseFontScaleOptions := {
  minScale : option number;
  maxScale : option number;
  listenToDimensions : option bool;
  listenToAppState : option bool
}.

(** The defaults of the destructuring [{ minScale = 0.8, maxScale = 2.0,
    listenToDimensions = true, listenToAppState = true } = options]. *)
Definition minScale_of (options : UseFontScaleOptions) : number :=
  default (dec 8 1) (minScale options).
Definition maxScale_of (options : UseFontScaleOptions) : number :=
  default (dec 20 1) (maxScale options).
Definition listenToDimensions_of (options : UseFontScaleOptions) : bool :=
  default true (listenToDimensions options).
Definition listenToAppState_of (options : UseFontScaleOptions) : bool :=
  default true (listenToAppState options).

(** [updateCount] is absent from the object [getFontScale] builds. *)
Record FontScaleResult := {
  fontScale : number;
  fontScaleCorrection : number;
  cachedFontScale : number;
  updateCount : option nat
}.

(** The hook's state together with the module-level [globalUpdateCount].
    In the source the counter is a number that starts at 0 and is only ever
    incremented; [nat] stands for its value while it is below 2^53, where
    [++] is exact (from 2^53 on [++] no longer changes a double).  Statements
    about the increment carry that bound. *)
Record HookState := {
  state : FontScaleResult;
  globalUpdateCount : nat
}.

(** The initialiser passed to [useState]. *)
Definition initialState (options : UseFontScaleOptions) (env : Platform)
    (globalUpdateCount : nat) : M FontScaleResult :=
  actualScale ← getFontScaleSync env;
  cachedScale ← getCachedFontScale env;
  let clampedScale := clamp actualScale (minScale_of options) (maxScale_of options) in
  let correction :=
    if negb (cachedScale === of_Z 0)%js then (clampedScale / cachedScale)%js else of_Z 1 in
  mret {| fontScale := clampedScale;
          fontScaleCorrection := correction;
          cachedFontScale := cachedScale;
          updateCount := Some globalUpdateCount |}.

Definition updateFontScale (options : UseFontScaleOptions) (env : Platform)
    (h : HookState) : M HookState :=
  actualScale ← getNativeFontScale env;
  cachedScale ← getCachedFontScale env;
  let clampedScale := clamp actualScale (minScale_of options) (maxScale_of options) in
  let correction :=
    if negb (cachedScale === of_Z 0)%js then (clampedScale / cachedScale)%js else of_Z 1 in
  let globalUpdateCount := S (globalUpdateCount h) in
  console_log "[useFontScale] Actual:";;
  mret {| state := {| fontScale := clampedScale;
                      fontScaleCorrection := correction;
                      cachedFontScale := cachedScale;
                      updateCount := Some globalUpdateCount |};
          globalUpdateCount := globalUpdateCount |}.

(** The imperative [getFontScale(options)]. *)
Definition getFontScale (options : UseFontScaleOptions) (env : Platform)
    : M FontScaleResult :=
  actualScale ← getNativeFontScale env;
  cachedScale ← getCachedFontScale env;
  let clampedScale := clamp actualScale (minScale_of options) (maxScale_of options) in
  let correction :=
    if negb (cachedScale === of_Z 0)%js then (clampedScale / cachedScale)%js else of_Z 1 in
  mret {| fontScale := clampedScale;
          fontScaleCorrection := correction;
          cachedFontScale := cachedScale;
          updateCount := None |}.

(** The platform on an Android device where the native module is linked:
    [NativeModules.FontScaleModule] is the Kotlin module over [ctx], and
    [PixelRatio.getFontScale()] yields [cached]. *)
Definition android_platform (ctx : FontScaleModule_kt.ReactApplicationContext)
    (cached : outcome number) : Platform :=
  {| Platform_OS := android;
     FontScaleModule :=
       Some {| native_getFontScale := Some (FontScaleModule_kt.getFontScale ctx);
               native_getFontScaleSync := Some (FontScaleModule_kt.getFontScaleSync ctx) |};
     PixelRatio_getFontScale := cached |}.

(** What the hook reacts to after mounting, each with the platform as the
    read it triggers sees it. *)
Inductive Event :=
  | AppStateChange (nextAppState : string) (env : Platform)
  | DimensionChange (env : Platform).

(** A rejected [updateFontScale] never reaches [setState] nor the counter. *)
Definition settle (h : HookState) (m : M HookState) : HookState :=
  match m.1 with
  | Returns h' => h'
  | Throws _ => h
  end.

Definition handle (options : UseFontScaleOptions) (h : HookState) (ev : Event)
    : HookState :=
  match ev with
  | AppStateChange nextAppState env =>
      if listenToAppState_of options && bool_decide (nextAppState = "active")
      then settle h (updateFontScale options env h)
      else h
  | DimensionChange env =>
      if listenToDimensions_of options
      then settle h (updateFontScale options env h)
      else h
  end.

(** Mounting: the initial state, read during the first render on [env], then
    the update the app-state effect runs once mounted, which reads again, on
    the platform as it is by then ([mounted]).  [None] when the initialiser
    throws (nothing is rendered). *)
Definition mount (options : UseFontScaleOptions) (env mounted : Platform)
    (globalUpdateCount : nat) : option (HookState * HookState) :=
  match (initialState options env globalUpdateCount).1 with
  | Returns st =>
      let h := {| state := st; globalUpdateCount := globalUpdateCount |} in
      Some (h, if listenToAppState_of options
               then settle h (updateFontScale options mounted h)
               else h)
  | Throws _ => None
  end.

Fixpoint states_after (options : UseFontScaleOptions) (h : HookState)
    (events : list Event) : list FontScaleResult :=
  match events with
  | [] => []
  | ev :: events =>
      let h' := handle options h ev in
      state h' :: states_after options h' events
  end.

(** Every value [useFontScale] returns over the life of the component: the
    initial state, the state after the on-mount update, and the state after
    each event. *)
Definition useFontScale (options : UseFontScaleOptions) (env mounted : Platform)
    (globalUpdateCount : nat) (events : list Event) : list FontScaleResult :=
  match mount options env mounted globalUpdateCount with
  | Some (h0, h1) => state h0 :: state h1 :: states_after options h1 events
  | None => []
  end.

End Hooks.

(** ** src/theme/ThemeProvider.tsx *)

Module ThemeProvider.

Import Hooks.

(** A context value is a number or [undefined] ([None]); the context made by
    [createContext(1)] is represented by its default value. *)
Definition FontScaleContext : option number := Some (of_Z 1).

(** [useContext(context)]: the value of the nearest enclosing provider
    ([providers] lists them innermost first), or the context's default when
    there is none. *)
Definition useContext (context : option number) (providers : list (option number))
    : option number :=
  match providers with
  | value :: _ => value
  | [] => context
  end.

(** What [ScaledThemeProvider] builds from one result of the hook: the value
    it gives to [FontScaleContext.Provider] and the theme. *)
Definition ScaledThemeProvider (r : FontScaleResult)
    : option number * Theme.ScaledTheme :=
  (Some (fontScale r), Theme.createScaledTheme (fontScale r)).

Definition useFontScaleValue (providers : list (option number)) : M number :=
  match useContext FontScaleContext providers with
  | None =>
      console_warn
        "useFontScaleValue must be used within a ScaledThemeProvider. Falling back to default scale of 1.";;
      mret (of_Z 1)
  | Some fontScale => mret fontScale
  end.

End ThemeProvider.

(** * Vocabulary of the statements *)

(** ** Magnitudes

    A double other than NaN is a multiple of the smallest subnormal
    [2 ^ emin]: [Zval] is that multiple, with the infinities placed at
    [2 ^ emax]. *)
Definition Zval (prec emax : Z) (x : spec_float) : Z :=
  match x with
  | S754_zero _ => 0
  | S754_infinity s => cond_Zopp s (2 ^ (emax - emin prec emax))
  | S754_nan => 0
  | S754_finite s m e => cond_Zopp s (Zpos m * 2 ^ (e - emin prec emax))
  end.

(** Rounding [N / 2 ^ n] to the nearest integer, ties to even. *)
Definition rne (N n : Z) : Z :=
  let q := N / 2 ^ n in
  match 2 * (N mod 2 ^ n) ?= 2 ^ n with
  | Lt => q
  | Gt => q + 1
  | Eq => if Z.even q then q else q + 1
  end.

(** The double nearest to [N * 2 ^ (2 * emin)], for [0 <= N], in units of
    [2 ^ emin] and saturating at the magnitude of the infinities; and its
    extension to negative [N]. *)
Definition round_mag (prec emax : Z) (N : Z) : Z :=
  let t := Z.max (Z.log2 N + 1 - prec) (- emin prec emax) in
  Z.min (rne N t * 2 ^ (t + emin prec emax)) (2 ^ (emax - emin prec emax)).

Definition round_prod (prec emax : Z) (N : Z) : Z :=
  Z.sgn N * round_mag prec emax (Z.abs N).

(** [Math.round] in magnitudes: [floor (v + 1/2)], one being
    [2 ^ (- emin)] smallest subnormals. *)
Definition round_half_up (v : Z) : Z :=
  2 ^ (- emin JS.prec JS.emax)
  * ((v + 2 ^ (- emin JS.prec JS.emax - 1)) / 2 ^ (- emin JS.prec JS.emax)).

(** ** Inputs *)

Module Inputs.

Import Hooks.

(** Readings that are numbers. *)
Definition outcome_is_number (o : outcome number) : bool :=
  match o with
  | Returns v => is_number v
  | Throws _ => true
  end.

Definition method_is_number (method : option (outcome number)) : bool :=
  match method with
  | Some o => outcome_is_number o
  | None => true
  end.

Definition readings_are_numbers (env : Platform) : bool :=
  outcome_is_number (PixelRatio_getFontScale env) &&
  match FontScaleModule env with
  | Some module =>
      method_is_number (native_getFontScale module) &&
      method_is_number (native_getFontScaleSync module)
  | None => true
  end.

Definition event_platform (ev : Event) : Platform :=
  match ev with
  | AppStateChange _ env => env
  | DimensionChange env => env
  end.

(** [s] is what a read of the font scale returns on [env]. *)
Definition native_reading (env : Platform) (s : number) : Prop :=
  (getFontScaleSync env).1 = Returns s \/ (getNativeFontScale env).1 = Returns s.

(** The three places that build a [FontScaleResult] compute the same scale
    and correction from what the two reads return. *)
Definition scale_and_correction (options : UseFontScaleOptions)
    (actualScale cachedScale : number) (r : FontScaleResult) : Prop :=
  fontScale r = clamp actualScale (minScale_of options) (maxScale_of options) /\
  cachedFontScale r = cachedScale /\
  fontScaleCorrection r =
    if negb (cachedScale === of_Z 0)%js then (fontScale r / cachedScale)%js else of_Z 1.

(** A published result: its scale is the clamp of a read made on one of the
    platforms satisfying [P]. *)
Definition clamps_a_reading (options : UseFontScaleOptions)
    (P : Platform -> Prop) (r : FontScaleResult) : Prop :=
  exists env s, P env /\ native_reading env s /\
    fontScale r = clamp s (minScale_of options) (maxScale_of options).

(** Whether the hook runs an update on [ev]: its listener is subscribed
    and, for an app-state change, the app has become active. *)
Definition runs_update (options : UseFontScaleOptions) (ev : Event) : bool :=
  match ev with
  | AppStateChange nextAppState _ =>
      listenToAppState_of options && bool_decide (nextAppState = "active")
  | DimensionChange _ => listenToDimensions_of options
  end.

(** [r] is what is published after [previous] once an update has been due
    ([runs]) on [env]: the clamp of the live reading made on [env] when both
    of its reads return, and [previous] again when no update ran or when it
    failed. *)
Definition publishes (options : UseFontScaleOptions) (runs : bool) (env : Platform)
    (previous r : FontScaleResult) : Prop :=
  if runs then
    match (getNativeFontScale env).1, PixelRatio_getFontScale env with
    | Returns actualScale, Returns _ =>
        fontScale r = clamp actualScale (minScale_of options) (maxScale_of options)
    | _, _ => r = previous
    end
  else r = previous.

(** The options all left out. *)
Definition defaults : UseFontScaleOptions :=
  {| minScale := None; maxScale := None;
     listenToDimensions := None; listenToAppState := None |}.

(** An Android device at scale [actual] on which React Native still reports
    1.0. *)
Definition stale (actual : number) : Platform :=
  android_platform
    {| FontScaleModule_kt.currentActivity_fontScale := Returns (Some actual);
       FontScaleModule_kt.resources_fontScale := Returns actual |}
    (Returns (of_Z 1)).

(** The live read is rejected and the cached read throws. *)
Definition both_reads_throw : Platform :=
  {| Platform_OS := android;
     FontScaleModule :=
       Some {| native_getFontScale := Some (Throws "rejected");
               native_getFontScaleSync := None |};
     PixelRatio_getFontScale := Throws "PixelRatio failed" |}.

(** The device is at 1.8 while React Native still reports 1.5. *)
Definition scale_18_cached_15 : Platform :=
  {| Platform_OS := android;
     FontScaleModule :=
       Some {| native_getFontScale := Some (Returns (dec 18 1));
               native_getFontScaleSync := Some (Returns (dec 18 1)) |};
     PixelRatio_getFontScale := Returns (dec 15 1) |}.

(** The multiplier each variant's [lineHeight] expression uses in
    [createScaledTheme]: [tight] for the six headings, [normal] for all the
    others. *)
Definition variantMultiplier (name : string) : number :=
  if bool_decide (name ∈ ["h1"; "h2"; "h3"; "h4"; "h5"; "h6"]%string)
  then Theme.tight Theme.lineHeightMultipliers
  else Theme.normal Theme.lineHeightMultipliers.

End Inputs.

(** * Theory of the number model *)

Section FloatTheory.

Variables prec emax : Z.
Hypothesis Hprec : 1 < prec.
Hypothesis Hemax : prec < emax.

Local Abbreviation emin := (SpecFloat.emin prec emax).
Local Abbreviation fexp := (SpecFloat.fexp prec emax).
Local Abbreviation bounded := (SpecFloat.bounded prec emax).
Local Abbreviation valid := (SpecFloat.valid_binary prec emax).
Local Abbreviation numeric := (numeric prec emax).
Local Abbreviation finite := (finite prec emax).
Local Abbreviation Zval := (Zval prec emax).
Local Abbreviation round_mag := (round_mag prec emax).
Local Abbreviation round_prod := (round_prod prec emax).

Lemma pow2_pos k : 0 <= k -> 0 < 2 ^ k.
Proof. intros; apply Z.pow_pos_nonneg; lia. Qed.

Lemma pow2_split a b : 0 <= a -> 0 <= b -> 2 ^ (a + b) = 2 ^ a * 2 ^ b.
Proof. intros; apply Z.pow_add_r; lia. Qed.

Lemma pow2_le a b : 0 <= a <= b -> 2 ^ a <= 2 ^ b.
Proof. intros; apply Z.pow_le_mono_r; lia. Qed.

Lemma pow2_lt a b : 0 <= a < b -> 2 ^ a < 2 ^ b.
Proof. intros; apply Z.pow_lt_mono_r; lia. Qed.

Lemma digits2_pos_bounds m :
  2 ^ (Zpos (digits2_pos m) - 1) <= Zpos m < 2 ^ Zpos (digits2_pos m).
Proof.
  induction m as [p IH|p IH|]; cbn [digits2_pos].
  - rewrite Pos2Z.inj_succ.
    replace (Z.succ (Zpos (digits2_pos p)) - 1) with (Z.succ (Zpos (digits2_pos p) - 1)) by lia.
    rewrite !Z.pow_succ_r by lia. lia.
  - rewrite Pos2Z.inj_succ.
    replace (Z.succ (Zpos (digits2_pos p)) - 1) with (Z.succ (Zpos (digits2_pos p) - 1)) by lia.
    rewrite !Z.pow_succ_r by lia. lia.
  - change (2 ^ 0 <= 1 < 2 ^ 1). rewrite Z.pow_0_r, Z.pow_1_r. lia.
Qed.

Lemma digits2_pos_unique m d :
  2 ^ (d - 1) <= Zpos m < 2 ^ d -> Zpos (digits2_pos m) = d.
Proof.
  intros [Hl Hu]. pose proof (digits2_pos_bounds m) as [Hl' Hu'].
  assert (0 < d).
  { destruct (Z_lt_le_dec 0 d); [done|].
    assert (2 ^ d <= 2 ^ 0) by (destruct (Z_lt_le_dec d 0);
      [rewrite Z.pow_neg_r by lia; rewrite Z.pow_0_r; lia | apply pow2_le; lia]).
    rewrite Z.pow_0_r in *. lia. }
  destruct (Z_lt_le_dec (Zpos (digits2_pos m)) d).
  - assert (2 ^ Zpos (digits2_pos m) <= 2 ^ (d - 1)) by (apply pow2_le; lia). lia.
  - destruct (Z_lt_le_dec d (Zpos (digits2_pos m))); [|lia].
    assert (2 ^ d <= 2 ^ (Zpos (digits2_pos m) - 1)) by (apply pow2_le; lia). lia.
Qed.

Lemma emin_neg : emin < 0.
Proof. unfold SpecFloat.emin. lia. Qed.

Lemma bounded_inv m e :
  bounded m e = true ->
  emin <= e <= emax - prec /\ Zpos m < 2 ^ prec /\
  (e = emin \/ 2 ^ (prec - 1) <= Zpos m).
Proof.
  unfold SpecFloat.bounded, canonical_mantissa, SpecFloat.fexp.
  intros [Hc He]%andb_prop. apply Z.eqb_eq in Hc. apply Z.leb_le in He.
  pose proof (digits2_pos_bounds m) as [Hl Hu].
  destruct (Z.max_spec (Zpos (digits2_pos m) + e - prec) emin) as [[? Hm]|[? Hm]];
    rewrite Hm in Hc.
  - subst e. split; [lia|]. split; [|by left].
    assert (2 ^ Zpos (digits2_pos m) <= 2 ^ prec) by (apply pow2_le; lia). lia.
  - assert (Zpos (digits2_pos m) = prec) as Hd by lia. rewrite Hd in *.
    split; [lia|]. split; [lia|by right].
Qed.

Lemma bounded_intro m e :
  emin <= e <= emax - prec -> Zpos m < 2 ^ prec ->
  (e = emin \/ 2 ^ (prec - 1) <= Zpos m) ->
  bounded m e = true.
Proof.
  intros He Hm Hn.
  unfold SpecFloat.bounded, canonical_mantissa, SpecFloat.fexp.
  apply andb_true_intro; split; [apply Z.eqb_eq | apply Z.leb_le; lia].
  pose proof (digits2_pos_bounds m) as [Hl Hu].
  assert (Zpos (digits2_pos m) <= prec).
  { destruct (Z_lt_le_dec prec (Zpos (digits2_pos m))); [|done].
    assert (2 ^ prec <= 2 ^ (Zpos (digits2_pos m) - 1)) by (apply pow2_le; lia). lia. }
  destruct Hn as [->|Hn]; [lia|].
  assert (Zpos (digits2_pos m) = prec) by (apply digits2_pos_unique; lia).
  lia.
Qed.

Lemma finite_numeric x : finite x = true -> numeric x = true.
Proof. unfold finite, numeric. by destruct x; rewrite ?andb_false_r. Qed.

Lemma emax_emin : prec < emax - emin.
Proof. unfold SpecFloat.emin. lia. Qed.

(** Magnitude of a finite double in units of [2 ^ emin]. *)
Lemma bounded_mag m e :
  bounded m e = true ->
  0 < Zpos m * 2 ^ (e - emin) < 2 ^ (emax - emin).
Proof.
  intros (He & Hm & _)%bounded_inv.
  assert (0 < 2 ^ (e - emin)) by (apply pow2_pos; lia).
  split; [lia|].
  replace (emax - emin) with (prec + (emax - prec - emin)) by lia.
  pose proof emax_emin.
  rewrite pow2_split by lia.
  assert (2 ^ (e - emin) <= 2 ^ (emax - prec - emin)) by (apply pow2_le; lia).
  assert (0 < 2 ^ prec) by (apply pow2_pos; lia).
  nia.
Qed.

Lemma bounded_lt_exp m1 e1 m2 e2 :
  bounded m1 e1 = true -> bounded m2 e2 = true -> e1 < e2 ->
  Zpos m1 * 2 ^ (e1 - emin) < Zpos m2 * 2 ^ (e2 - emin).
Proof.
  intros (He1 & Hm1 & _)%bounded_inv (He2 & Hm2 & Hn2)%bounded_inv Hlt.
  destruct Hn2 as [->|Hn2]; [lia|].
  replace (e2 - emin) with ((e1 - emin) + (1 + (e2 - e1 - 1))) by lia.
  rewrite (pow2_split (e1 - emin)), (pow2_split 1) by lia.
  rewrite Z.pow_1_r.
  assert (0 < 2 ^ (e1 - emin)) by (apply pow2_pos; lia).
  assert (0 < 2 ^ (e2 - e1 - 1)) by (apply pow2_pos; lia).
  assert (2 ^ prec = 2 * 2 ^ (prec - 1)) as Hp.
  { replace prec with (1 + (prec - 1)) at 1 by lia.
    rewrite pow2_split, Z.pow_1_r by lia. done. }
  assert (Zpos m1 < 2 * Zpos m2) by lia.
  assert (2 * Zpos m2 <= 2 * Zpos m2 * 2 ^ (e2 - e1 - 1)) by nia.
  nia.
Qed.

Lemma compare_opp_opp a b : (- a ?= - b) = CompOpp (a ?= b).
Proof. rewrite Z.compare_opp. apply Z.compare_antisym. Qed.

(** Comparison of doubles is comparison of their magnitudes. *)
Lemma SFcompare_Zval x y :
  numeric x = true -> numeric y = true ->
  SFcompare x y = Some (Zval x ?= Zval y).
Proof.
  unfold numeric. pose proof emax_emin.
  assert (0 < 2 ^ (emax - emin)) as Hinf by (apply pow2_pos; lia).
  destruct x as [sx|sx| |sx mx ex], y as [sy|sy| |sy my ey];
    cbn [SFcompare Zval valid_binary SF_is_nan negb andb];
    rewrite ?andb_true_r; intros Hx Hy; try done;
    try (apply bounded_mag in Hx as Hx'); try (apply bounded_mag in Hy as Hy');
    try (destruct sx); try (destruct sy); cbn [cond_Zopp];
    try (f_equal; symmetry;
         first [apply Z.compare_eq_iff; lia | apply Z.compare_lt_iff; lia
               | apply Z.compare_gt_iff; lia]).
  all: assert (match ex ?= ey with
            | Lt => Lt | Gt => Gt | Eq => Pos.compare_cont Eq mx my end
            = (Zpos mx * 2 ^ (ex - emin) ?= Zpos my * 2 ^ (ey - emin))) as Hc
    by (destruct (Z.compare_spec ex ey) as [->|Hlt|Hgt]; symmetry;
        [ apply bounded_inv in Hy as (? & _);
          rewrite <- Zmult_compare_compat_r by (apply Z.lt_gt, pow2_pos; lia); done
        | apply Z.compare_lt_iff; by apply bounded_lt_exp
        | apply Z.compare_gt_iff; by apply bounded_lt_exp ]).
  - rewrite compare_opp_opp, <- Hc. by destruct (ex ?= ey).
  - f_equal. exact Hc.
Qed.

Lemma SFleb_Zval x y :
  numeric x = true -> numeric y = true ->
  SFleb x y = true <-> Zval x <= Zval y.
Proof.
  intros Hx Hy. unfold SFleb. rewrite SFcompare_Zval by done.
  unfold Z.le. destruct (Zval x ?= Zval y); split; done.
Qed.

Lemma SFltb_Zval x y :
  numeric x = true -> numeric y = true ->
  SFltb x y = true <-> Zval x < Zval y.
Proof.
  intros Hx Hy. unfold SFltb. rewrite SFcompare_Zval by done.
  unfold Z.lt. destruct (Zval x ?= Zval y); split; done.
Qed.

Lemma SFeqb_Zval x y :
  numeric x = true -> numeric y = true ->
  SFeqb x y = true <-> Zval x = Zval y.
Proof.
  intros Hx Hy. unfold SFeqb. rewrite SFcompare_Zval by done.
  rewrite <- Z.compare_eq_iff. destruct (Zval x ?= Zval y); split; done.
Qed.

(** *** Shifting with round and sticky bits *)

Lemma iter_pos_nat {A} (f : A -> A) p x :
  SpecFloat.iter_pos f p x = Nat.iter (Pos.to_nat p) f x.
Proof.
  revert x. induction p as [p IH|p IH|]; intros x; cbn [SpecFloat.iter_pos].
  - rewrite !IH, Pos2Nat.inj_xI.
    replace (S (2 * Pos.to_nat p))%nat with (Pos.to_nat p + S (Pos.to_nat p))%nat by lia.
    by rewrite Nat.iter_add, Nat.iter_succ_r.
  - rewrite !IH, Pos2Nat.inj_xO.
    replace (2 * Pos.to_nat p)%nat with (Pos.to_nat p + Pos.to_nat p)%nat by lia.
    by rewrite Nat.iter_add.
  - done.
Qed.

Lemma shr_1_spec m r s :
  0 <= m ->
  shr_1 {| shr_m := m; shr_r := r; shr_s := s |} =
  {| shr_m := m / 2; shr_r := Z.odd m; shr_s := r || s |}.
Proof.
  intros Hm. rewrite <- Z.div2_div.
  destruct m as [|[p|p|]|]; done || lia.
Qed.

Lemma shr_iter M (k : nat) :
  0 <= M ->
  Nat.iter (S k) shr_1 (shr_record_of_loc M loc_Exact) =
  {| shr_m := M / 2 ^ (Z.of_nat k + 1);
     shr_r := Z.odd (M / 2 ^ Z.of_nat k);
     shr_s := negb (M mod 2 ^ Z.of_nat k =? 0) |}.
Proof.
  intros HM. induction k as [|k IH].
  - cbn [Nat.iter shr_record_of_loc]. rewrite shr_1_spec by done.
    change (Z.of_nat 0) with 0. rewrite Z.pow_0_r, Z.pow_1_r, Z.div_1_r, Z.mod_1_r.
    done.
  - rewrite Nat.iter_succ, IH.
    assert (0 < 2 ^ Z.of_nat k) by (apply pow2_pos; lia).
    assert (0 < 2 ^ (Z.of_nat k + 1)) by (apply pow2_pos; lia).
    rewrite shr_1_spec by (apply Z.div_pos; lia).
    rewrite Nat2Z.inj_succ. unfold Z.succ.
    f_equal.
    + rewrite Z.div_div by lia.
      rewrite (pow2_split (Z.of_nat k + 1) 1), Z.pow_1_r by lia. done.
    + rewrite (pow2_split (Z.of_nat k) 1), Z.pow_1_r by lia.
      rewrite Z.rem_mul_r by lia. rewrite Zmod_odd.
      pose proof (Z.mod_pos_bound M (2 ^ Z.of_nat k)).
      destruct (Z.odd (M / 2 ^ Z.of_nat k)); cbn [orb].
      * symmetry. apply negb_true_iff, Z.eqb_neq. lia.
      * by rewrite Z.mul_0_r, Z.add_0_r.
Qed.

Lemma rne_0 N : rne N 0 = N.
Proof.
  unfold rne. rewrite Z.pow_0_r, Z.mod_1_r, Z.div_1_r. done.
Qed.

Lemma shr_round M e n :
  0 <= M -> 0 <= n ->
  round_nearest_even (shr_m (shr (shr_record_of_loc M loc_Exact) e n).1)
    (loc_of_shr_record (shr (shr_record_of_loc M loc_Exact) e n).1) = rne M n /\
  (shr (shr_record_of_loc M loc_Exact) e n).2 = e + n.
Proof.
  intros HM Hn. destruct n as [|p|p]; [| |lia].
  - cbn [shr fst snd shr_record_of_loc shr_m loc_of_shr_record round_nearest_even].
    rewrite rne_0. split; [done|lia].
  - cbn [shr fst snd]. split; [|done].
    rewrite iter_pos_nat.
    destruct (Pos2Nat.is_succ p) as [k Hk]. rewrite Hk, shr_iter by done.
    assert (Zpos p = Z.of_nat k + 1) as -> by lia.
    assert (0 < 2 ^ Z.of_nat k) by (apply pow2_pos; lia).
    unfold rne.
    rewrite (pow2_split (Z.of_nat k) 1), Z.pow_1_r by lia.
    rewrite Z.rem_mul_r by lia. rewrite Zmod_odd.
    pose proof (Z.mod_pos_bound M (2 ^ Z.of_nat k)).
    cbn [shr_m loc_of_shr_record].
    destruct (Z.odd (M / 2 ^ Z.of_nat k));
      destruct (Z.eqb_spec (M mod 2 ^ Z.of_nat k) 0) as [Hz|Hz];
      cbn [negb round_nearest_even].
    + rewrite Hz. replace (2 * (0 + 2 ^ Z.of_nat k * 1) ?= 2 ^ Z.of_nat k * 2) with Eq; [done|].
      symmetry. apply Z.compare_eq_iff. lia.
    + replace (2 * (M mod 2 ^ Z.of_nat k + 2 ^ Z.of_nat k * 1) ?= 2 ^ Z.of_nat k * 2)
        with Gt; [done|].
      symmetry. apply Z.compare_gt_iff. lia.
    + rewrite Hz. replace (2 * (0 + 2 ^ Z.of_nat k * 0) ?= 2 ^ Z.of_nat k * 2) with Lt; [done|].
      symmetry. apply Z.compare_lt_iff. lia.
    + replace (2 * (M mod 2 ^ Z.of_nat k + 2 ^ Z.of_nat k * 0) ?= 2 ^ Z.of_nat k * 2)
        with Lt; [done|].
      symmetry. apply Z.compare_lt_iff. lia.
Qed.

Lemma rne_bounds N n : 0 <= n -> N / 2 ^ n <= rne N n <= N / 2 ^ n + 1.
Proof.
  intros Hn. unfold rne.
  destruct (2 * (N mod 2 ^ n) ?= 2 ^ n); [destruct (Z.even _)| |]; lia.
Qed.

Lemma rne_exact K n : 0 <= n -> rne (K * 2 ^ n) n = K.
Proof.
  intros Hn. unfold rne.
  assert (0 < 2 ^ n) by (by apply pow2_pos).
  rewrite Z.mod_mul, Z.div_mul by lia.
  destruct (Z.compare_spec (2 * 0) (2 ^ n)); [lia|done|lia].
Qed.

Lemma rne_mono N1 N2 n : 0 <= n -> N1 <= N2 -> rne N1 n <= rne N2 n.
Proof.
  intros Hn HN.
  assert (0 < 2 ^ n) as HP by (by apply pow2_pos).
  pose proof (Z.div_le_mono N1 N2 (2 ^ n) HP HN) as Hq.
  pose proof (rne_bounds N1 n Hn). pose proof (rne_bounds N2 n Hn).
  destruct (Z.eq_dec (N1 / 2 ^ n) (N2 / 2 ^ n)) as [Heq|Hne]; [|lia].
  pose proof (Z.div_mod N1 (2 ^ n)) as H1. pose proof (Z.div_mod N2 (2 ^ n)) as H2.
  rewrite Heq in H1.
  assert (N1 mod 2 ^ n <= N2 mod 2 ^ n) as Hr by lia.
  unfold rne. rewrite Heq.
  destruct (Z.compare_spec (2 * (N1 mod 2 ^ n)) (2 ^ n));
    destruct (Z.compare_spec (2 * (N2 mod 2 ^ n)) (2 ^ n));
    destruct (Z.even (N2 / 2 ^ n)); lia.
Qed.

Lemma rne_shift N n k : 0 <= n -> 0 <= k -> rne (N * 2 ^ k) (n + k) = rne N n.
Proof.
  intros Hn Hk. unfold rne.
  assert (0 < 2 ^ n) by (by apply pow2_pos).
  assert (0 < 2 ^ k) by (by apply pow2_pos).
  rewrite pow2_split by done.
  rewrite Z.div_mul_cancel_r, Z.mul_mod_distr_r by lia.
  replace (2 * (N mod 2 ^ n * 2 ^ k) ?= 2 ^ n * 2 ^ k) with (2 * (N mod 2 ^ n) ?= 2 ^ n); [done|].
  rewrite (Zmult_compare_compat_r _ _ (2 ^ k)) by lia.
  f_equal. lia.
Qed.

Lemma scaled_ge X c a b :
  0 <= c -> 0 <= a -> b <= c + a -> 2 ^ c <= X -> 2 ^ b <= X * 2 ^ a.
Proof.
  intros Hc Ha Hb HX.
  assert (0 < 2 ^ a) by (by apply pow2_pos).
  assert (2 ^ b <= 2 ^ (c + a)).
  { destruct (Z_lt_le_dec b 0).
    - rewrite (Z.pow_neg_r 2 b) by done. apply Z.lt_le_incl, pow2_pos. lia.
    - apply pow2_le. lia. }
  rewrite pow2_split in * by done. nia.
Qed.

Lemma scaled_lt X c a b :
  0 <= c -> 0 <= a -> c + a <= b -> X < 2 ^ c -> X * 2 ^ a < 2 ^ b.
Proof.
  intros Hc Ha Hb HX.
  assert (0 < 2 ^ a) by (by apply pow2_pos).
  assert (2 ^ (c + a) <= 2 ^ b) by (apply pow2_le; lia).
  rewrite pow2_split in * by done. nia.
Qed.

Lemma canonical_intro m e :
  emin <= e -> Zpos m < 2 ^ prec ->
  (e = emin \/ 2 ^ (prec - 1) <= Zpos m) ->
  fexp (Zpos (digits2_pos m) + e) = e.
Proof.
  intros He Hm Hn. unfold SpecFloat.fexp.
  pose proof (digits2_pos_bounds m) as [Hl Hu].
  assert (Zpos (digits2_pos m) <= prec).
  { destruct (Z_lt_le_dec prec (Zpos (digits2_pos m))); [|done].
    assert (2 ^ prec <= 2 ^ (Zpos (digits2_pos m) - 1)) by (apply pow2_le; lia). lia. }
  destruct Hn as [->|Hn]; [lia|].
  assert (Zpos (digits2_pos m) = prec) by (apply digits2_pos_unique; lia).
  lia.
Qed.

(** The quotient kept by the first shift of [binary_round_aux]. *)
Lemma rne_mantissa_bounds mx E :
  let n := fexp (Zpos (digits2_pos mx) + E) - E in
  0 <= n ->
  0 <= rne (Zpos mx) n <= 2 ^ prec /\
  (E + n = emin /\ rne (Zpos mx) n <= 2 ^ (prec - 1) \/
   2 ^ (prec - 1) <= rne (Zpos mx) n).
Proof.
  intros n Hn. pose proof (digits2_pos_bounds mx) as [Hl Hu].
  set (d := Zpos (digits2_pos mx)) in *.
  assert (0 < d) by done.
  assert (0 < 2 ^ n) as HP by (by apply pow2_pos).
  pose proof (rne_bounds (Zpos mx) n Hn) as [Hq1 Hq2].
  assert (0 <= Zpos mx / 2 ^ n) by (apply Z.div_pos; lia).
  assert (2 ^ (prec - 1) < 2 ^ prec) by (apply pow2_lt; lia).
  unfold SpecFloat.fexp in n.
  destruct (Z.max_spec (d + E - prec) emin) as [[Hc Hm]|[Hc Hm]].
  - (* subnormal *)
    assert (n = emin - E) as Hn' by (unfold n; lia).
    assert (Zpos mx / 2 ^ n < 2 ^ (prec - 1)).
    { apply Z.div_lt_upper_bound; [done|].
      assert (2 ^ d <= 2 ^ (n + (prec - 1))) by (apply pow2_le; lia).
      rewrite pow2_split in * by lia. lia. }
    split; [lia|]. left. split; lia.
  - (* normal *)
    assert (n = d - prec) as Hn' by (unfold n; lia).
    assert (2 ^ (prec - 1) <= Zpos mx / 2 ^ n).
    { apply Z.div_le_lower_bound; [done|].
      replace (d - 1) with (n + (prec - 1)) in Hl by lia.
      rewrite pow2_split in Hl by lia. lia. }
    assert (Zpos mx / 2 ^ n < 2 ^ prec).
    { apply Z.div_lt_upper_bound; [done|].
      replace d with (n + prec) in Hu by lia.
      rewrite pow2_split in Hu by lia. lia. }
    split; [lia|]. right. lia.
Qed.

Lemma binary_round_aux_spec s mx E :
  0 <= fexp (Zpos (digits2_pos mx) + E) - E ->
  numeric (binary_round_aux prec emax s (Zpos mx) E loc_Exact) = true /\
  Zval (binary_round_aux prec emax s (Zpos mx) E loc_Exact) =
  cond_Zopp s (Z.min (rne (Zpos mx) (fexp (Zpos (digits2_pos mx) + E) - E)
                      * 2 ^ (fexp (Zpos (digits2_pos mx) + E) - emin))
                     (2 ^ (emax - emin))).
Proof.
  intros Hn.
  pose proof (rne_mantissa_bounds mx E Hn) as [[Hq0 Hq1] Hq2].
  unfold binary_round_aux, shr_fexp. cbn [Zdigits2].
  destruct (shr_round (Zpos mx) E _ ltac:(lia) Hn) as [Hr He].
  destruct (shr (shr_record_of_loc (Zpos mx) loc_Exact) E
              (fexp (Zpos (digits2_pos mx) + E) - E)) as [mrs' e'].
  cbn [fst snd] in Hr, He. rewrite Hr. clear Hr mrs'.
  set (n := fexp (Zpos (digits2_pos mx) + E) - E) in *.
  replace (fexp (Zpos (digits2_pos mx) + E)) with e' by lia.
  replace (E + n) with e' in Hq2 by lia.
  set (q := rne (Zpos mx) n) in *.
  assert (emin <= e') as Hemin.
  { rewrite He. unfold n, SpecFloat.fexp. lia. }
  pose proof emax_emin as Htop.
  assert (0 < 2 ^ (emax - emin)) as Hinf by (apply pow2_pos; lia).
  assert (2 ^ (prec - 1) < 2 ^ prec) by (apply pow2_lt; lia).
  assert (2 ^ prec = 2 * 2 ^ (prec - 1)) as Hp.
  { replace prec with (1 + (prec - 1)) at 1 by lia.
    rewrite pow2_split, Z.pow_1_r by lia. done. }
  clearbody q. clear He Hn n.
  destruct q as [|mq|mq]; [| |lia].
  - (* the quotient is zero *)
    cbn [Zdigits2]. unfold shr.
    assert (fexp (0 + e') - e' <= 0) by (unfold SpecFloat.fexp; lia).
    destruct (fexp (0 + e') - e') as [|p|p] eqn:Hsh; [|lia|];
      cbn [shr_record_of_loc shr_m]; unfold numeric; cbn [valid_binary SF_is_nan negb andb Zval];
      rewrite Z.mul_0_l, Z.min_l by lia; by destruct s.
  - destruct (Z_lt_le_dec (Zpos mq) (2 ^ prec)) as [Hlt|Hge].
    + (* no carry *)
      assert (fexp (Zpos (digits2_pos mq) + e') = e') as Hcan.
      { apply canonical_intro; [done|done|]. destruct Hq2 as [[? _]|?]; [by left|by right]. }
      cbn [Zdigits2]. rewrite Hcan, Z.sub_diag. unfold shr.
      cbn [shr_record_of_loc shr_m].
      destruct (Z.leb_spec e' (emax - prec)) as [Hle|Hgt].
      * assert (bounded mq e' = true) as Hb.
        { apply bounded_intro; [lia|done|]. destruct Hq2 as [[? _]|?]; [by left|by right]. }
        unfold numeric. cbn [valid_binary SF_is_nan negb Zval]. rewrite Hb.
        pose proof (bounded_mag _ _ Hb). rewrite Z.min_l by lia. done.
      * unfold numeric. cbn [valid_binary SF_is_nan negb Zval andb].
        destruct Hq2 as [[? _]|Hq2]; [lia|].
        rewrite Z.min_r; [done|].
        apply (scaled_ge _ (prec - 1)); lia.
    + (* the rounded quotient is [2 ^ prec]: one more shift *)
      assert (Zpos mq = 2 ^ prec) as Hmq by lia.
      assert (Zpos (digits2_pos mq) = prec + 1) as Hd.
      { apply digits2_pos_unique. replace (prec + 1 - 1) with prec by lia.
        split; [lia|]. rewrite Hmq. apply pow2_lt. lia. }
      cbn [Zdigits2]. rewrite Hd.
      assert (fexp (prec + 1 + e') - e' = 1) as -> by (unfold SpecFloat.fexp; lia).
      unfold shr. cbn [SpecFloat.iter_pos shr_record_of_loc].
      rewrite shr_1_spec by lia. cbn [shr_m].
      assert (Zpos mq / 2 = 2 ^ (prec - 1)) as Hhalf.
      { rewrite Hmq, Hp, Z.mul_comm, Z.div_mul by lia. done. }
      rewrite Hhalf.
      assert (0 < 2 ^ (prec - 1)) as Hpos by (apply pow2_pos; lia).
      destruct (2 ^ (prec - 1)) as [|m'|m'] eqn:Hm'; [lia| |lia].
      assert (Zpos mq * 2 ^ (e' - emin) = Zpos m' * 2 ^ (e' + 1 - emin)) as Hval.
      { replace (e' + 1 - emin) with (1 + (e' - emin)) by lia.
        rewrite pow2_split, Z.pow_1_r by lia. lia. }
      rewrite Hval.
      destruct (Z.leb_spec (e' + 1) (emax - prec)) as [Hle|Hgt].
      * assert (bounded m' (e' + 1) = true) as Hb.
        { apply bounded_intro; [lia|lia|right; lia]. }
        unfold numeric. cbn [valid_binary SF_is_nan negb Zval]. rewrite Hb.
        pose proof (bounded_mag _ _ Hb). rewrite Z.min_l by lia. done.
      * unfold numeric. cbn [valid_binary SF_is_nan negb Zval andb].
        rewrite Z.min_r; [done|].
        apply (scaled_ge _ (prec - 1)); lia.
Qed.

(** *** Correctly rounded products *)

Lemma digits2_pos_log2 m : Zpos (digits2_pos m) = Z.log2 (Zpos m) + 1.
Proof.
  pose proof (digits2_pos_bounds m) as [Hl Hu].
  assert (Z.log2 (Zpos m) = Zpos (digits2_pos m) - 1); [|lia].
  apply Z.log2_unique; [lia|].
  replace (Z.succ (Zpos (digits2_pos m) - 1)) with (Zpos (digits2_pos m)) by lia.
  done.
Qed.

Lemma round_mag_0 : round_mag 0 = 0.
Proof.
  unfold round_mag. pose proof emin_neg. pose proof emax_emin.
  change (Z.log2 0) with 0.
  rewrite (Z.max_r (0 + 1 - prec)) by lia.
  replace 0 with (0 * 2 ^ (- emin)) at 1 by lia.
  rewrite rne_exact by lia.
  assert (0 < 2 ^ (emax - emin)) by (apply pow2_pos; lia). lia.
Qed.

Lemma round_mag_nonneg N : 0 <= N -> 0 <= round_mag N.
Proof.
  intros HN. unfold round_mag. pose proof emin_neg. pose proof emax_emin.
  set (t := Z.max (Z.log2 N + 1 - prec) (- emin)).
  assert (0 <= t) by lia.
  pose proof (rne_bounds N t ltac:(done)) as [Hq _].
  assert (0 <= N / 2 ^ t) by (apply Z.div_pos; [done|by apply pow2_pos]).
  assert (0 < 2 ^ (t + emin)) by (apply pow2_pos; lia).
  assert (0 < 2 ^ (emax - emin)) by (apply pow2_pos; lia).
  apply Z.min_glb; nia.
Qed.

Lemma round_mag_mono N1 N2 : 0 <= N1 <= N2 -> round_mag N1 <= round_mag N2.
Proof.
  intros [H0 H12].
  destruct (Z.eq_dec N1 0) as [->|Hnz].
  { rewrite round_mag_0. apply round_mag_nonneg. lia. }
  unfold round_mag. apply Z.min_le_compat_r.
  pose proof emin_neg.
  pose proof (Z.log2_le_mono N1 N2 H12) as HL.
  pose proof (Z.log2_nonneg N1). pose proof (Z.log2_nonneg N2).
  pose proof (Z.log2_spec N1 ltac:(lia)) as [Hl1 Hu1].
  pose proof (Z.log2_spec N2 ltac:(lia)) as [Hl2 Hu2].
  set (L1 := Z.log2 N1) in *. set (L2 := Z.log2 N2) in *.
  set (t1 := Z.max (L1 + 1 - prec) (- emin)).
  set (t2 := Z.max (L2 + 1 - prec) (- emin)).
  assert (0 <= t1 <= t2) as [Ht1 Ht12] by lia.
  destruct (Z.eq_dec t1 t2) as [Heq|Hne].
  - rewrite <- Heq.
    assert (0 < 2 ^ (t1 + emin)) by (apply pow2_pos; lia).
    pose proof (rne_mono N1 N2 t1 Ht1 H12). nia.
  - assert (t2 = L2 + 1 - prec) as Ht2 by lia.
    assert (L1 < L2) as HL12 by lia.
    (* both sides are separated by [2 ^ (L2 + emin)] *)
    assert (rne N1 t1 * 2 ^ (t1 + emin) <= 2 ^ (L2 + emin)).
    { assert (rne N1 t1 <= 2 ^ (L2 - t1)).
      { rewrite <- (rne_exact (2 ^ (L2 - t1)) t1) by done.
        apply rne_mono; [done|].
        rewrite <- pow2_split by lia. replace (L2 - t1 + t1) with L2 by lia.
        assert (2 ^ Z.succ L1 <= 2 ^ L2) by (apply pow2_le; lia). lia. }
      replace (L2 + emin) with ((L2 - t1) + (t1 + emin)) by lia.
      rewrite (pow2_split (L2 - t1) (t1 + emin)) by lia.
      assert (0 < 2 ^ (t1 + emin)) by (apply pow2_pos; lia). nia. }
    assert (2 ^ (L2 + emin) <= rne N2 t2 * 2 ^ (t2 + emin)).
    { assert (2 ^ (L2 - t2) <= rne N2 t2).
      { rewrite <- (rne_exact (2 ^ (L2 - t2)) t2) by lia.
        apply rne_mono; [lia|].
        rewrite <- pow2_split by lia. replace (L2 - t2 + t2) with L2 by lia. done. }
      replace (L2 + emin) with ((L2 - t2) + (t2 + emin)) by lia.
      rewrite (pow2_split (L2 - t2) (t2 + emin)) by lia.
      assert (0 < 2 ^ (t2 + emin)) by (apply pow2_pos; lia). nia. }
    lia.
Qed.

Lemma round_prod_mono N1 N2 : N1 <= N2 -> round_prod N1 <= round_prod N2.
Proof.
  intros H12. unfold round_prod.
  destruct (Z.sgn_spec N1) as [[? ->]|[[? ->]|[? ->]]];
    destruct (Z.sgn_spec N2) as [[? ->]|[[? ->]|[? ->]]]; try lia.
  - pose proof (round_mag_mono (Z.abs N1) (Z.abs N2) ltac:(lia)). lia.
  - subst N1. change (Z.abs 0) with 0. rewrite round_mag_0.
    pose proof (round_mag_nonneg (Z.abs N2) ltac:(lia)). lia.
  - pose proof (round_mag_nonneg (Z.abs N1) ltac:(lia)).
    pose proof (round_mag_nonneg (Z.abs N2) ltac:(lia)). lia.
  - pose proof (round_mag_nonneg (Z.abs N1) ltac:(lia)). lia.
  - pose proof (round_mag_mono (Z.abs N2) (Z.abs N1) ltac:(lia)). lia.
Qed.

Lemma SFmul_finite_spec sx mx ex sy my ey :
  bounded mx ex = true -> bounded my ey = true ->
  numeric (SFmul prec emax (S754_finite sx mx ex) (S754_finite sy my ey)) = true /\
  Zval (SFmul prec emax (S754_finite sx mx ex) (S754_finite sy my ey)) =
  cond_Zopp (xorb sx sy)
    (round_mag (Zpos mx * 2 ^ (ex - emin) * (Zpos my * 2 ^ (ey - emin)))).
Proof.
  intros Hx Hy. cbn [SFmul].
  pose proof (bounded_inv _ _ Hx) as (Hex & Hmx & Hnx).
  pose proof (bounded_inv _ _ Hy) as (Hey & Hmy & Hny).
  pose proof emin_neg.
  pose proof (digits2_pos_bounds (mx * my)) as [Hl Hu].
  assert (0 <= fexp (Zpos (digits2_pos (mx * my)) + (ex + ey)) - (ex + ey)) as Hn.
  { unfold SpecFloat.fexp.
    destruct (Z_lt_le_dec (Zpos (digits2_pos (mx * my))) prec) as [Hd|Hd]; [|lia].
    assert (Zpos (mx * my) < 2 ^ (prec - 1)).
    { assert (2 ^ Zpos (digits2_pos (mx * my)) <= 2 ^ (prec - 1)) by (apply pow2_le; lia).
      lia. }
    rewrite Pos2Z.inj_mul in *.
    destruct Hnx as [->|Hnx]; [destruct Hny as [->|Hny]; [lia|nia]|nia]. }
  destruct (binary_round_aux_spec (xorb sx sy) (mx * my) (ex + ey) Hn) as [Hnum Hval].
  split; [done|]. rewrite Hval. f_equal.
  unfold round_mag.
  set (k := ex + ey - 2 * emin).
  assert (0 <= k) by (unfold k; lia).
  assert (Zpos mx * 2 ^ (ex - emin) * (Zpos my * 2 ^ (ey - emin)) = Zpos (mx * my) * 2 ^ k) as ->.
  { unfold k. replace (ex + ey - 2 * emin) with ((ex - emin) + (ey - emin)) by lia.
    rewrite pow2_split, Pos2Z.inj_mul by lia. lia. }
  rewrite Z.log2_mul_pow2 by lia.
  rewrite digits2_pos_log2 in *.
  set (L := Z.log2 (Zpos (mx * my))) in *.
  assert (Z.max (k + L + 1 - prec) (- emin)
          = (fexp (L + 1 + (ex + ey)) - (ex + ey)) + k) as ->.
  { unfold SpecFloat.fexp, k. lia. }
  rewrite rne_shift by lia.
  f_equal. f_equal. f_equal. unfold k. lia.
Qed.

Lemma round_prod_pos N : 0 < N -> round_prod N = round_mag N.
Proof.
  intros HN. unfold round_prod. rewrite Z.sgn_pos, Z.abs_eq by lia. lia.
Qed.

Lemma round_prod_opp N : round_prod (- N) = - round_prod N.
Proof. unfold round_prod. rewrite Z.sgn_opp, Z.abs_opp. lia. Qed.

(** The product of two finite doubles, as [SFmul] computes it. *)
Lemma SFmul_spec x y :
  finite x = true -> finite y = true ->
  numeric (SFmul prec emax x y) = true /\
  Zval (SFmul prec emax x y) = round_prod (Zval x * Zval y).
Proof.
  unfold finite.
  destruct x as [sx|sx| |sx mx ex], y as [sy|sy| |sy my ey];
    cbn [valid_binary SF_is_finite andb]; rewrite ?andb_true_r, ?andb_false_r;
    intros Hx Hy; try done.
  all: try (cbn [SFmul Zval]; rewrite ?Z.mul_0_l, ?Z.mul_0_r; done).
  destruct (SFmul_finite_spec sx mx ex sy my ey Hx Hy) as [Hnum Hval].
  split; [done|]. rewrite Hval. cbn [Zval].
  pose proof (bounded_mag _ _ Hx). pose proof (bounded_mag _ _ Hy).
  set (A := Zpos mx * 2 ^ (ex - emin)) in *.
  set (B := Zpos my * 2 ^ (ey - emin)) in *.
  assert (0 < A * B) by nia.
  destruct sx, sy; cbn [xorb cond_Zopp].
  - replace (- A * - B) with (A * B) by lia. by rewrite round_prod_pos.
  - replace (- A * B) with (- (A * B)) by lia.
    by rewrite round_prod_opp, round_prod_pos.
  - replace (A * - B) with (- (A * B)) by lia.
    by rewrite round_prod_opp, round_prod_pos.
  - by rewrite round_prod_pos.
Qed.

Lemma numeric_finite x :
  numeric x = true -> - 2 ^ (emax - emin) < Zval x < 2 ^ (emax - emin) ->
  finite x = true.
Proof.
  unfold numeric, finite. destruct x as [s|s| |s m e]; cbn [SF_is_nan SF_is_finite negb Zval];
    rewrite ?andb_true_r, ?andb_false_r; try done.
  destruct s; cbn [cond_Zopp]; lia.
Qed.

Lemma finite_Zval_bound x :
  finite x = true -> - 2 ^ (emax - emin) < Zval x < 2 ^ (emax - emin).
Proof.
  unfold finite. pose proof emax_emin.
  assert (0 < 2 ^ (emax - emin)) by (apply pow2_pos; lia).
  destruct x as [s|s| |s m e]; cbn [valid_binary SF_is_finite Zval];
    rewrite ?andb_true_r, ?andb_false_r; try done; try lia.
  intros Hb%bounded_mag. destruct s; cbn [cond_Zopp]; lia.
Qed.

(** A double is its own nearest double. *)
Lemma round_prod_representable x :
  finite x = true -> round_prod (Zval x * 2 ^ (- emin)) = Zval x.
Proof.
  unfold finite. pose proof emin_neg.
  destruct x as [s|s| |s m e]; cbn [valid_binary SF_is_finite Zval];
    rewrite ?andb_true_r, ?andb_false_r; try done.
  intros Hb.
  pose proof (bounded_inv _ _ Hb) as (He & Hm & Hn).
  pose proof (bounded_mag _ _ Hb) as Hmag.
  assert (0 < 2 ^ (- emin)) by (apply pow2_pos; lia).
  assert (round_mag (Zpos m * 2 ^ (e - emin) * 2 ^ (- emin)) = Zpos m * 2 ^ (e - emin)) as Hmagv.
  { unfold round_mag.
    rewrite <- Z.mul_assoc, <- pow2_split by lia.
    rewrite Z.log2_mul_pow2 by lia.
    assert (fexp (Zpos (digits2_pos m) + e) = e) as Hcan by (apply canonical_intro; [lia|done|done]).
    rewrite digits2_pos_log2 in Hcan. unfold SpecFloat.fexp in Hcan.
    assert (Z.max (e - emin + - emin + Z.log2 (Zpos m) + 1 - prec) (- emin)
            = e - emin + - emin) as -> by lia.
    rewrite rne_exact by lia.
    replace (e - emin + - emin + emin) with (e - emin) by lia. lia. }
  destruct s; cbn [cond_Zopp].
  - rewrite Z.mul_opp_l, round_prod_opp, round_prod_pos by nia. by rewrite Hmagv.
  - rewrite round_prod_pos by nia. done.
Qed.

Lemma iter_xO m p : Zpos (Pos.iter xO m p) = Zpos m * 2 ^ Zpos p.
Proof.
  induction p as [|p IH] using Pos.peano_ind.
  - cbn [Pos.iter]. rewrite Z.pow_1_r. lia.
  - rewrite Pos.iter_succ, Pos2Z.inj_xO, IH, Pos2Z.inj_succ, Z.pow_succ_r by lia. lia.
Qed.

(** Integers below [2 ^ prec] in magnitude are doubles. *)
Lemma binary_normalize_spec n :
  - 2 ^ prec < n < 2 ^ prec ->
  finite (binary_normalize prec emax n 0 false) = true /\
  Zval (binary_normalize prec emax n 0 false) = n * 2 ^ (- emin).
Proof.
  intros Hn. pose proof emin_neg. pose proof emax_emin.
  assert (0 < 2 ^ (- emin)) by (apply pow2_pos; lia).
  assert (forall s m, Zpos m < 2 ^ prec ->
            finite (binary_round prec emax s m 0) = true /\
            Zval (binary_round prec emax s m 0) = cond_Zopp s (Zpos m * 2 ^ (- emin))) as Hround.
  { intros s m Hm. unfold binary_round.
    pose proof (digits2_pos_bounds m) as [Hl Hu].
    set (d := Zpos (digits2_pos m)) in *.
    assert (0 < d) by done.
    assert (d <= prec).
    { destruct (Z_lt_le_dec prec d); [|done].
      assert (2 ^ prec <= 2 ^ (d - 1)) by (apply pow2_le; lia). lia. }
    assert (fexp (d + 0) = d - prec) as Hf by (unfold SpecFloat.fexp, SpecFloat.emin; lia).
    assert (Zpos m * 2 ^ (- emin) < 2 ^ (emax - emin)) as Htop.
    { apply (scaled_lt _ prec); lia. }
    assert (forall mz ez, Zpos (digits2_pos mz) = prec -> ez = d - prec ->
              Zpos mz * 2 ^ (ez - emin) = Zpos m * 2 ^ (- emin) ->
              finite (binary_round_aux prec emax s (Zpos mz) ez loc_Exact) = true /\
              Zval (binary_round_aux prec emax s (Zpos mz) ez loc_Exact)
              = cond_Zopp s (Zpos m * 2 ^ (- emin))) as Haux.
    { intros mz ez Hd Hez Hv.
      assert (fexp (Zpos (digits2_pos mz) + ez) = ez) as Hcan.
      { rewrite Hd. unfold SpecFloat.fexp, SpecFloat.emin. lia. }
      destruct (binary_round_aux_spec s mz ez) as [Hnum Hval]; [lia|].
      rewrite Hcan, Z.sub_diag, rne_0, Hv, Z.min_l in Hval by lia.
      split; [|done]. apply numeric_finite; [done|].
      rewrite Hval. destruct s; cbn [cond_Zopp]; lia. }
    unfold shl_align. rewrite Hf, Z.sub_0_r.
    destruct (d - prec) as [|p|p] eqn:Hdp; [|lia|].
    - apply Haux; [lia|lia|]. by rewrite Z.sub_0_l.
    - apply Haux.
      + apply digits2_pos_unique. rewrite iter_xO. split.
        * apply (scaled_ge _ (d - 1)); lia.
        * apply (scaled_lt _ d); lia.
      + lia.
      + assert (0 <= Z.neg p - emin) by (unfold SpecFloat.emin; lia).
        rewrite iter_xO, <- Z.mul_assoc, <- pow2_split by lia.
        f_equal. f_equal. lia. }
  unfold binary_normalize. destruct n as [|m|m].
  - done.
  - destruct (Hround false m) as [? ->]; [lia|]. done.
  - destruct (Hround true m) as [? ->]; [lia|]. split; [done|]. cbn [cond_Zopp]. lia.
Qed.

End FloatTheory.

(** * Facts about JavaScript numbers *)

Module JSFacts.

Import JS.

Lemma prec_gt_1 : 1 < prec.
Proof. done. Qed.

Lemma prec_lt_emax : prec < emax.
Proof. done. Qed.

(** The magnitude of a double in units of the smallest subnormal, and the
    magnitude of [1.0] in those units. *)
Abbreviation mag := (Zval prec emax).
Abbreviation one := (2 ^ (- emin prec emax)).
Abbreviation half := (2 ^ (- emin prec emax - 1)).

Lemma emin_lt_m1 : emin prec emax < - 1.
Proof. done. Qed.

Lemma one_half : one = 2 * half.
Proof.
  pose proof emin_lt_m1.
  assert (one = 2 ^ (1 + (- emin prec emax - 1))) as -> by (f_equal; lia).
  rewrite pow2_split, Z.pow_1_r by lia. done.
Qed.

Lemma half_pos : 0 < half.
Proof. pose proof emin_lt_m1. apply pow2_pos. lia. Qed.

Lemma is_finite_is_number x : is_finite x = true -> is_number x = true.
Proof. apply finite_numeric. Qed.

Lemma leb_mag x y :
  is_number x = true -> is_number y = true -> (x <=? y)%js = true <-> mag x <= mag y.
Proof. apply SFleb_Zval; done. Qed.

Lemma ltb_mag x y :
  is_number x = true -> is_number y = true -> (x <? y)%js = true <-> mag x < mag y.
Proof. apply SFltb_Zval; done. Qed.

Lemma strict_eq_mag x y :
  is_number x = true -> is_number y = true -> (x === y)%js = true <-> mag x = mag y.
Proof. apply SFeqb_Zval; done. Qed.

Lemma compare_mag x y :
  is_number x = true -> is_number y = true -> SFcompare x y = Some (mag x ?= mag y).
Proof. apply SFcompare_Zval; done. Qed.

Lemma Math_min_spec x y :
  is_number x = true -> is_number y = true ->
  is_number (Math_min x y) = true /\
  mag (Math_min x y) = Z.min (mag x) (mag y) /\
  (Math_min x y = x \/ Math_min x y = y).
Proof.
  intros Hx Hy. unfold Math_min. rewrite compare_mag by done.
  destruct (Z.compare_spec (mag x) (mag y)) as [Heq|Hlt|Hgt].
  - destruct (is_neg_zero y).
    + split; [done|]. split; [lia|by right].
    + split; [done|]. split; [lia|by left].
  - split; [done|]. split; [lia|by left].
  - split; [done|]. split; [lia|by right].
Qed.

Lemma Math_max_spec x y :
  is_number x = true -> is_number y = true ->
  is_number (Math_max x y) = true /\
  mag (Math_max x y) = Z.max (mag x) (mag y) /\
  (Math_max x y = x \/ Math_max x y = y).
Proof.
  intros Hx Hy. unfold Math_max. rewrite compare_mag by done.
  destruct (Z.compare_spec (mag x) (mag y)) as [Heq|Hlt|Hgt].
  - destruct (is_neg_zero x).
    + split; [done|]. split; [lia|by right].
    + split; [done|]. split; [lia|by left].
  - split; [done|]. split; [lia|by right].
  - split; [done|]. split; [lia|by left].
Qed.

Lemma mul_spec x y :
  is_finite x = true -> is_finite y = true ->
  is_number (x * y)%js = true /\
  mag (x * y)%js = round_prod prec emax (mag x * mag y).
Proof. apply SFmul_spec; done. Qed.

Lemma of_Z_spec n :
  - 2 ^ prec < n < 2 ^ prec ->
  is_finite (of_Z n) = true /\ mag (of_Z n) = n * one.
Proof. apply binary_normalize_spec; done. Qed.

Lemma is_finite_bound x :
  is_finite x = true -> - 2 ^ (emax - emin prec emax) < mag x < 2 ^ (emax - emin prec emax).
Proof. apply finite_Zval_bound; done. Qed.

Lemma is_number_finite x :
  is_number x = true ->
  - 2 ^ (emax - emin prec emax) < mag x < 2 ^ (emax - emin prec emax) ->
  is_finite x = true.
Proof. apply numeric_finite. Qed.

Lemma round_half_up_mono v w : v <= w -> round_half_up v <= round_half_up w.
Proof.
  intros Hvw. unfold round_half_up.
  pose proof half_pos. pose proof one_half.
  apply Z.mul_le_mono_nonneg_l; [lia|].
  apply Z.div_le_mono; lia.
Qed.

Lemma round_half_up_integer K : round_half_up (K * one) = K * one.
Proof.
  unfold round_half_up. pose proof half_pos. pose proof one_half.
  rewrite Z.div_add_l by lia. rewrite (Z.div_small half one) by lia. lia.
Qed.

Lemma Math_round_spec x :
  is_number x = true ->
  is_number (Math_round x) = true /\
  mag (Math_round x) = round_half_up (mag x) /\
  (is_finite x = true -> is_finite (Math_round x) = true).
Proof.
  pose proof emin_lt_m1 as Hemin. pose proof prec_gt_1. pose proof prec_lt_emax.
  destruct x as [s|s| |s m e]; intros Hx; try done.
  - (* infinity *)
    split; [done|]. split; [|done].
    cbn [Math_round Zval].
    assert (2 ^ (emax - emin prec emax) = 2 ^ emax * one) as ->.
    { rewrite <- pow2_split by lia. f_equal. }
    destruct s; cbn [cond_Zopp].
    + by rewrite <- Z.mul_opp_l, round_half_up_integer.
    + by rewrite round_half_up_integer.
  - (* finite *)
    assert (bounded prec emax m e = true) as Hb.
    { unfold is_number, numeric in Hx. cbn [valid_binary SF_is_nan negb] in Hx.
      by rewrite andb_true_r in Hx. }
    pose proof Hb as (He & Hm & _)%bounded_inv; [|done..].
    cbn [Math_round]. destruct (Z.leb_spec 0 e) as [He0|He0].
    + split; [done|]. split; [|done]. cbn [Zval].
      assert (Zpos m * 2 ^ (e - emin prec emax) = Zpos m * 2 ^ e * one) as ->.
      { rewrite <- Z.mul_assoc, <- pow2_split by lia. f_equal. }
      destruct s; cbn [cond_Zopp].
      * by rewrite <- !Z.mul_opp_l, round_half_up_integer.
      * by rewrite round_half_up_integer.
    + set (k := - e) in *.
      set (W := 2 ^ (e - emin prec emax)).
      assert (0 < W) by (apply pow2_pos; lia).
      assert (0 < 2 ^ (k - 1)) as HH by (apply pow2_pos; lia).
      assert (2 ^ k = 2 * 2 ^ (k - 1)) as HP.
      { replace k with (1 + (k - 1)) at 1 by lia.
        rewrite pow2_split, Z.pow_1_r by lia. done. }
      assert (0 < 2 ^ prec) by (apply pow2_pos; lia).
      set (n := (cond_Zopp s (Zpos m) + 2 ^ (k - 1)) / 2 ^ k).
      assert (- 2 ^ prec < n < 2 ^ prec) as Hn.
      { unfold n. split.
        - apply Z.lt_le_trans with (- 2 ^ prec + 1); [lia|].
          apply Z.div_le_lower_bound; [lia|].
          destruct s; cbn [cond_Zopp]; nia.
        - apply Z.div_lt_upper_bound; [lia|].
          destruct s; cbn [cond_Zopp]; nia. }
      assert (round_half_up (mag (S754_finite s m e)) = n * one) as Hr.
      { unfold round_half_up. cbn [Zval].
        assert (one = 2 ^ k * W) as Hone.
        { unfold W. rewrite <- pow2_split by lia. f_equal. lia. }
        assert (half = 2 ^ (k - 1) * W) as Hhalf.
        { unfold W. rewrite <- pow2_split by lia. f_equal. lia. }
        fold W. rewrite Hhalf. rewrite Hone at 2.
        assert (cond_Zopp s (Zpos m * W) + 2 ^ (k - 1) * W
                = (cond_Zopp s (Zpos m) + 2 ^ (k - 1)) * W) as ->
          by (destruct s; cbn [cond_Zopp]; lia).
        rewrite Z.div_mul_cancel_r by lia. fold n. lia. }
      rewrite Hr.
      replace (- e - 1) with (k - 1) by lia. fold k. fold n.
      destruct (Z.eqb_spec n 0) as [Hz|Hnz].
      * rewrite Hz. done.
      * destruct (of_Z_spec n Hn) as [Hfin Hval].
        split; [by apply is_finite_is_number|]. done.
Qed.

Lemma Math_round_mono x y :
  is_number x = true -> is_number y = true ->
  (x <=? y)%js = true -> (Math_round x <=? Math_round y)%js = true.
Proof.
  intros Hx Hy Hxy.
  destruct (Math_round_spec x Hx) as (Hnx & Hvx & _).
  destruct (Math_round_spec y Hy) as (Hny & Hvy & _).
  apply leb_mag; [done..|]. rewrite Hvx, Hvy.
  apply round_half_up_mono. by apply leb_mag.
Qed.

(** *** The operations of [applyScale], one by one *)

Lemma Math_min_mono x y c :
  is_number x = true -> is_number y = true -> is_number c = true ->
  (x <=? y)%js = true -> (Math_min x c <=? Math_min y c)%js = true.
Proof.
  intros Hx Hy Hc Hxy%leb_mag; [|done..].
  destruct (Math_min_spec x c Hx Hc) as (Hnx & Hmx & _).
  destruct (Math_min_spec y c Hy Hc) as (Hny & Hmy & _).
  apply leb_mag; [done..|]. lia.
Qed.

Lemma Math_min_above_cap x y c :
  is_number x = true -> is_number y = true -> is_number c = true ->
  (c <=? x)%js = true -> (c <=? y)%js = true ->
  (Math_min x c === Math_min y c)%js = true.
Proof.
  intros Hx Hy Hc Hcx%leb_mag Hcy%leb_mag; [|done..].
  destruct (Math_min_spec x c Hx Hc) as (Hnx & Hmx & _).
  destruct (Math_min_spec y c Hy Hc) as (Hny & Hmy & _).
  apply strict_eq_mag; [done..|]. lia.
Qed.

Lemma Math_min_finite x y :
  is_finite x = true -> is_finite y = true -> is_finite (Math_min x y) = true.
Proof.
  intros Hx Hy.
  destruct (Math_min_spec x y) as (_ & _ & [->| ->]); by try apply is_finite_is_number.
Qed.

Lemma mag_0 : mag (of_Z 0) = 0.
Proof. done. Qed.

Lemma mag_1 : mag (of_Z 1) = one.
Proof.
  assert (- 2 ^ prec < 1 < 2 ^ prec) as H1 by done.
  destruct (of_Z_spec 1 H1) as [_ ->]. lia.
Qed.

(** Multiplication by a non-negative double is monotone: the exact products
    are ordered and rounding to nearest preserves the order. *)
Lemma mul_mono b x y :
  is_finite b = true -> is_finite x = true -> is_finite y = true ->
  (of_Z 0 <=? b)%js = true -> (x <=? y)%js = true ->
  (b * x <=? b * y)%js = true.
Proof.
  intros Hb Hx Hy Hb0 Hxy.
  pose proof (is_finite_is_number _ Hb). pose proof (is_finite_is_number _ Hx).
  pose proof (is_finite_is_number _ Hy).
  apply leb_mag in Hb0; [|done..]. rewrite mag_0 in Hb0.
  apply leb_mag in Hxy; [|done..].
  destruct (mul_spec b x Hb Hx) as [Hnx Hmx].
  destruct (mul_spec b y Hb Hy) as [Hny Hmy].
  apply leb_mag; [done..|]. rewrite Hmx, Hmy.
  apply round_prod_mono; [apply prec_gt_1|apply prec_lt_emax|].
  apply Z.mul_le_mono_nonneg_l; lia.
Qed.

Lemma mul_strict_eq b x y :
  is_finite b = true -> is_finite x = true -> is_finite y = true ->
  (x === y)%js = true -> (b * x === b * y)%js = true.
Proof.
  intros Hb Hx Hy Hxy.
  apply strict_eq_mag in Hxy; [|by apply is_finite_is_number..].
  destruct (mul_spec b x Hb Hx) as [Hnx Hmx].
  destruct (mul_spec b y Hb Hy) as [Hny Hmy].
  apply strict_eq_mag; [done..|]. by rewrite Hmx, Hmy, Hxy.
Qed.

Lemma Math_round_strict_eq x y :
  is_number x = true -> is_number y = true ->
  (x === y)%js = true -> (Math_round x === Math_round y)%js = true.
Proof.
  intros Hx Hy Hxy%strict_eq_mag; [|done..].
  destruct (Math_round_spec x Hx) as (Hnx & Hvx & _).
  destruct (Math_round_spec y Hy) as (Hny & Hvy & _).
  apply strict_eq_mag; [done..|]. by rewrite Hvx, Hvy, Hxy.
Qed.

(** *** The literals of the source and a few roundings, evaluated *)

Example literal_1_4 : dec 14 1 = S754_finite false 0x16666666666666 (-52).
Proof. reflexivity. Qed.

Example literal_0_8 : dec 8 1 = S754_finite false 0x1999999999999a (-53).
Proof. reflexivity. Qed.

Example literal_48 : of_Z 48 = S754_finite false 0x18000000000000 (-47).
Proof. reflexivity. Qed.

Example product_48_1_4 :
  (of_Z 48 * dec 14 1)%js = S754_finite false 0x10cccccccccccc (-46).
Proof. reflexivity. Qed.

Example Math_round_examples :
  Math_round (dec 25 1) = of_Z 3 /\
  Math_round (- dec 25 1)%js = of_Z (-2) /\
  Math_round (dec 49 1) = of_Z 5 /\
  Math_round (- dec 3 1)%js = S754_zero true /\
  Math_round (dec 3 1) = S754_zero false /\
  Math_round (S754_infinity false) = S754_infinity false /\
  Math_round NaN = NaN.
Proof. repeat split; reflexivity. Qed.

Example Math_min_max_examples :
  Math_min (dec 35 1) (of_Z 2) = of_Z 2 /\
  Math_max (dec 5 1) (dec 8 1) = dec 8 1 /\
  Math_min (S754_zero false) (S754_zero true) = S754_zero true /\
  Math_max (S754_zero true) (S754_zero false) = S754_zero false /\
  Math_min NaN (of_Z 2) = NaN.
Proof. repeat split; reflexivity. Qed.

End JSFacts.

(** * The derived tokens *)

Module ThemeFacts.

Import JS JSFacts Theme Inputs.

(** *** The spacing table *)

Lemma foldl_scaleEntry_other s entries acc key :
  key ∉ entries.*1 ->
  foldl (scaleEntry s) acc entries !! key = acc !! key.
Proof.
  revert acc. induction entries as [|[k v] entries IH]; intros acc Hk; [done|].
  cbn [foldl]. rewrite fmap_cons in Hk. cbn [fst] in Hk.
  apply not_elem_of_cons in Hk as [Hne Hk].
  rewrite IH by done. unfold scaleEntry.
  destruct (v === of_Z 0)%js; by rewrite lookup_insert_ne.
Qed.

Lemma foldl_scaleEntry_lookup s entries acc key value :
  NoDup entries.*1 -> (key, value) ∈ entries ->
  foldl (scaleEntry s) acc entries !! key =
  Some (if (value === of_Z 0)%js then of_Z 0 else applyScale value s (scaleCaps spacing)).
Proof.
  revert acc. induction entries as [|[k v] entries IH]; intros acc Hnd Hin.
  - by apply elem_of_nil in Hin.
  - rewrite fmap_cons in Hnd. cbn [fst] in Hnd. apply NoDup_cons in Hnd as [Hk Hnd].
    cbn [foldl]. apply elem_of_cons in Hin as [[= -> ->]|Hin].
    + rewrite foldl_scaleEntry_other by done. unfold scaleEntry.
      destruct (v === of_Z 0)%js; by rewrite lookup_insert_eq.
    + by apply IH.
Qed.

Lemma baseSpacing_keys_NoDup : NoDup baseSpacing.*1.
Proof. apply (bool_decide_unpack _). by vm_compute. Qed.

Lemma negative_keys_fresh :
  Forall (fun k => k ∉ baseSpacing.*1) ["-xs"; "-sm"; "-md"; "-lg"; "-xl"; "-2xl"]%string.
Proof. apply (bool_decide_unpack _). by vm_compute. Qed.

(** The negative keys are written last and are not keys of [baseSpacing]. *)
Lemma createScaledSpacing_base s key value :
  (key, value) ∈ baseSpacing ->
  createScaledSpacing s !! key =
  Some (if (value === of_Z 0)%js then of_Z 0 else applyScale value s (scaleCaps spacing)).
Proof.
  intros Hin. unfold createScaledSpacing.
  assert (key ∈ baseSpacing.*1) as Hkey.
  { apply list_elem_of_fmap. by exists (key, value). }
  pose proof negative_keys_fresh as Hf. rewrite !Forall_cons in Hf.
  destruct Hf as (H1 & H2 & H3 & H4 & H5 & H6 & _).
  rewrite !lookup_insert_ne by (by intros <-).
  by apply foldl_scaleEntry_lookup; [apply baseSpacing_keys_NoDup|].
Qed.

(** C1: a derived token is [round (base * min (scale, cap))]: for
    [applyScale] at every base size, scale factor and cap, for every entry of
    the font-size table and every non-zero entry of the spacing table, on the
    two literal examples, and end to end (a native reading of 3.5 is published
    as 2.0, at which the heading token of base 48 is 67, the body token of
    base 14 is 28 and the button token of base 14 is 18). *)
Theorem derived_token_is_rounded_capped_product :
  (forall b s k : number, applyScale b s k = Math_round (b * Math_min s k)%js) /\
  (forall s : number,
     createScaledFontSizes s =
     {| xs := Math_round (of_Z 10 * Math_min s (scaleCaps caption))%js;
        sm := Math_round (of_Z 12 * Math_min s (scaleCaps caption))%js;
        md := Math_round (of_Z 14 * Math_min s (scaleCaps body))%js;
        lg := Math_round (of_Z 16 * Math_min s (scaleCaps body))%js;
        xl := Math_round (of_Z 18 * Math_min s (scaleCaps heading))%js;
        _2xl := Math_round (of_Z 20 * Math_min s (scaleCaps heading))%js;
        _3xl := Math_round (of_Z 24 * Math_min s (scaleCaps heading))%js;
        _4xl := Math_round (of_Z 30 * Math_min s (scaleCaps heading))%js;
        _5xl := Math_round (of_Z 36 * Math_min s (scaleCaps heading))%js;
        _6xl := Math_round (of_Z 48 * Math_min s (scaleCaps heading))%js |}) /\
  (forall s : number,
     Forall (fun '(key, value) =>
               createScaledSpacing s !! key =
               Some (if (value === of_Z 0)%js then of_Z 0
                     else Math_round (value * Math_min s (scaleCaps spacing))%js))
       baseSpacing) /\
  applyScale (of_Z 10) (of_Z 3) (dec 18 1) = of_Z 18 /\
  applyScale (of_Z 16) (dec 5 1) (of_Z 2) = of_Z 8 /\
  Hooks.clamp (dec 35 1) (dec 8 1) (of_Z 2) = of_Z 2 /\
  _6xl (createScaledFontSizes (of_Z 2)) = of_Z 67 /\
  md (createScaledFontSizes (of_Z 2)) = of_Z 28 /\
  (fontSize <$> list_to_map (M := gmap string TextVariant)
                  (textVariants (createScaledTheme (of_Z 2))) !! "button"%string)
  = Some (of_Z 18).
Proof.
  split; [done|]. split; [done|]. split.
  { intros s. apply Forall_forall. intros [key value] Hin.
    by apply createScaledSpacing_base. }
  repeat split; by vm_compute.
Qed.

(** C8: whatever the scale factor (the configured bounds included), a base
    spacing value equal to 0 derives to exactly 0. *)
Theorem zero_spacing_stays_zero (s : number) (key : string) (value : number) :
  (key, value) ∈ baseSpacing -> (value === of_Z 0)%js = true ->
  createScaledSpacing s !! key = Some (of_Z 0).
Proof.
  intros Hin Hzero. rewrite (createScaledSpacing_base s key value Hin).
  by rewrite Hzero.
Qed.

Lemma zero_spacing_stays_zero_witness :
  createScaledSpacing (dec 8 1) !! "none"%string = Some (of_Z 0) /\
  createScaledSpacing (of_Z 2) !! "none"%string = Some (of_Z 0).
Proof.
  split.
  - apply (zero_spacing_stays_zero (dec 8 1) "none" (of_Z 0)).
    + apply list_elem_of_here.
    + reflexivity.
  - apply (zero_spacing_stays_zero (of_Z 2) "none" (of_Z 0)).
    + apply list_elem_of_here.
    + reflexivity.
Defined.

(** The entry at position [n] of [baseSpacing], found again behind the
    negative keys written after it. *)
Local Tactic Notation "negative_key" constr(Hbase) constr(key) constr(value) integer(n) :=
  let v := fresh "v" in
  let Hv := fresh "Hv" in
  let Hf := fresh "Hf" in
  destruct (Hbase key value) as (v & Hv & Hf);
  [do n apply list_elem_of_further; apply list_elem_of_here|];
  exists v; split; [exact Hv|];
  unfold createScaledSpacing;
  rewrite ?lookup_insert_ne by done; rewrite lookup_insert_eq;
  unfold negated; rewrite ?lookup_insert_ne by done; by rewrite Hf.

(** C9: for every scale factor, each negative spacing key holds the
    arithmetic negation of the value derived for its positive key. *)
Theorem negative_spacing_is_negation (s : number) :
  Forall (fun '(negative, positive) =>
            exists v : number,
              createScaledSpacing s !! positive = Some v /\
              createScaledSpacing s !! negative = Some (- v)%js)
    [ ("-xs", "xs"); ("-sm", "sm"); ("-md", "md");
      ("-lg", "lg"); ("-xl", "xl"); ("-2xl", "2xl") ]%string.
Proof.
  assert (forall key value, (key, value) ∈ baseSpacing ->
            exists v, createScaledSpacing s !! key = Some v /\
                      foldl (scaleEntry s) ∅ baseSpacing !! key = Some v) as Hbase.
  { intros key value Hin. eexists. split.
    - by apply createScaledSpacing_base.
    - by apply foldl_scaleEntry_lookup; [apply baseSpacing_keys_NoDup|]. }
  repeat apply Forall_cons_2; [..|apply Forall_nil_2].
  - negative_key Hbase "xs"%string (of_Z 4) 1.
  - negative_key Hbase "sm"%string (of_Z 8) 2.
  - negative_key Hbase "md"%string (of_Z 12) 3.
  - negative_key Hbase "lg"%string (of_Z 16) 4.
  - negative_key Hbase "xl"%string (of_Z 20) 5.
  - negative_key Hbase "2xl"%string (of_Z 24) 6.
Qed.

(** *** Monotonicity and line heights *)

Lemma applyScale_mag b s c :
  is_finite b = true -> is_finite s = true -> is_finite c = true ->
  is_number (applyScale b s c) = true /\
  mag (applyScale b s c) =
  round_half_up (round_prod prec emax (mag b * Z.min (mag s) (mag c))).
Proof.
  intros Hb Hs Hc. unfold applyScale.
  destruct (Math_min_spec s c) as (_ & Hmin & _); [by apply is_finite_is_number..|].
  destruct (mul_spec b (Math_min s c) Hb (Math_min_finite s c Hs Hc)) as [Hn Hm].
  destruct (Math_round_spec _ Hn) as (Hn' & Hm' & _).
  split; [done|]. by rewrite Hm', Hm, Hmin.
Qed.

(** C4: for a non-negative base size the derived size does not decrease
    when the scale factor grows, and it is the same for any two scale factors
    at or above the cap. *)
Theorem applyScale_monotone_then_constant (b c s1 s2 : number) :
  is_finite b = true -> is_finite c = true ->
  is_finite s1 = true -> is_finite s2 = true ->
  (of_Z 0 <=? b)%js = true ->
  ((s1 <=? s2)%js = true ->
   (applyScale b s1 c <=? applyScale b s2 c)%js = true) /\
  ((c <=? s1)%js = true -> (c <=? s2)%js = true ->
   (applyScale b s1 c === applyScale b s2 c)%js = true).
Proof.
  intros Hb Hc Hs1 Hs2 Hb0.
  pose proof (is_finite_is_number _ Hc). pose proof (is_finite_is_number _ Hs1).
  pose proof (is_finite_is_number _ Hs2).
  pose proof (Math_min_finite s1 c Hs1 Hc) as Hf1.
  pose proof (Math_min_finite s2 c Hs2 Hc) as Hf2.
  destruct (mul_spec b _ Hb Hf1) as [Hn1 _].
  destruct (mul_spec b _ Hb Hf2) as [Hn2 _].
  unfold applyScale. split.
  - intros H12. apply Math_round_mono; [done..|].
    apply mul_mono; [done..|]. by apply Math_min_mono.
  - intros Hc1 Hc2. apply Math_round_strict_eq; [done..|].
    apply mul_strict_eq; [done..|]. by apply Math_min_above_cap.
Qed.

Lemma applyScale_monotone_then_constant_witness :
  (applyScale (of_Z 48) (of_Z 1) (scaleCaps heading)
   <=? applyScale (of_Z 48) (dec 13 1) (scaleCaps heading))%js = true /\
  (applyScale (of_Z 48) (dec 15 1) (scaleCaps heading)
   === applyScale (of_Z 48) (of_Z 2) (scaleCaps heading))%js = true.
Proof.
  split.
  - apply (applyScale_monotone_then_constant
             (of_Z 48) (scaleCaps heading) (of_Z 1) (dec 13 1)); reflexivity.
  - apply (applyScale_monotone_then_constant
             (of_Z 48) (scaleCaps heading) (dec 15 1) (of_Z 2)); reflexivity.
Defined.

(** A rounded size multiplied by a factor of at least 1 and rounded again
    does not get smaller. *)
Lemma rounded_size_le_scaled y m :
  is_number y = true -> is_finite (Math_round y) = true ->
  (of_Z 0 <=? Math_round y)%js = true ->
  is_finite m = true -> (of_Z 1 <=? m)%js = true ->
  (Math_round y <=? Math_round (Math_round y * m))%js = true.
Proof.
  intros Hy Hf Hf0 Hm Hm1.
  destruct (Math_round_spec y Hy) as (Hnf & Hmf & _).
  pose proof (is_finite_is_number _ Hm) as Hnm.
  apply leb_mag in Hf0; [|done..]. rewrite mag_0 in Hf0.
  apply leb_mag in Hm1; [|done..]. rewrite mag_1 in Hm1.
  destruct (mul_spec (Math_round y) m Hf Hm) as [Hnp Hmp].
  destruct (Math_round_spec _ Hnp) as (Hnr & Hmr & _).
  apply leb_mag; [done..|]. rewrite Hmr, Hmp.
  assert (round_half_up (mag (Math_round y)) = mag (Math_round y)) as Hint.
  { rewrite Hmf. unfold round_half_up at 2.
    rewrite (Z.mul_comm one), round_half_up_integer. unfold round_half_up. lia. }
  rewrite <- Hint at 1. apply round_half_up_mono.
  rewrite <- (round_prod_representable prec emax prec_gt_1 prec_lt_emax (Math_round y) Hf)
    at 1.
  apply round_prod_mono; [apply prec_gt_1|apply prec_lt_emax|].
  apply Z.mul_le_mono_nonneg_l; lia.
Qed.

(** Below the cap the size stays within what the cap allows. *)
Lemma applyScale_finite_nonneg b s c :
  is_finite b = true -> is_finite c = true -> is_number s = true ->
  (of_Z 0 <=? b)%js = true -> (of_Z 0 <=? c)%js = true -> (of_Z 0 <=? s)%js = true ->
  is_finite (applyScale b c c) = true ->
  is_number (b * Math_min s c)%js = true /\
  is_finite (applyScale b s c) = true /\
  (of_Z 0 <=? applyScale b s c)%js = true.
Proof.
  intros Hb Hc Hs Hb0 Hc0 Hs0 Hcap.
  pose proof (is_finite_is_number _ Hb). pose proof (is_finite_is_number _ Hc).
  apply leb_mag in Hb0; [|done..]. apply leb_mag in Hc0; [|done..].
  apply leb_mag in Hs0; [|done..]. rewrite mag_0 in *.
  destruct (Math_min_spec s c) as (Hnmin & Hmin & _); [done..|].
  pose proof (is_finite_bound c Hc).
  assert (is_finite (Math_min s c) = true) as Hfmin.
  { apply is_number_finite; [done|]. rewrite Hmin. lia. }
  destruct (mul_spec b (Math_min s c) Hb Hfmin) as [Hn Hm].
  destruct (Math_round_spec _ Hn) as (Hn' & Hm' & _).
  destruct (applyScale_mag b c c Hb Hc Hc) as [_ Hmcap].
  rewrite Z.min_id in Hmcap.
  pose proof (is_finite_bound _ Hcap) as Hbound. rewrite Hmcap in Hbound.
  assert (0 <= mag (applyScale b s c) <= mag (applyScale b c c)) as Hrange.
  { unfold applyScale at 1 2. rewrite Hm', Hm, Hmin, Hmcap.
    split.
    - replace 0 with (round_half_up (round_prod prec emax 0)) at 1 by done.
      apply round_half_up_mono, round_prod_mono; [apply prec_gt_1|apply prec_lt_emax|].
      apply Z.mul_nonneg_nonneg; lia.
    - apply round_half_up_mono, round_prod_mono; [apply prec_gt_1|apply prec_lt_emax|].
      apply Z.mul_le_mono_nonneg_l; lia. }
  split; [done|]. split.
  - apply is_number_finite; [done|]. rewrite Hmcap in Hrange.
    pose proof emin_lt_m1. pose proof prec_lt_emax. pose proof prec_gt_1.
    assert (0 < 2 ^ (emax - emin prec emax)) by (apply pow2_pos; lia).
    fold (applyScale b s c) in Hn'. lia.
  - apply leb_mag; [done..|]. rewrite mag_0. lia.
Qed.

Local Ltac variant_entry s :=
  let Hs := fresh "Hs" in
  let Hs0 := fresh "Hs0" in
  split; [reflexivity|]; split; [by vm_compute|]; intros Hs Hs0;
  cbn [fontSize lineHeight createScaledFontSizes xs sm md lg xl
       _2xl _3xl _4xl _5xl _6xl];
  match goal with
  | |- (applyScale ?b s ?c <=? Math_round (applyScale ?b s ?c * ?m))%js = true =>
      let Hy := fresh "Hy" in
      let Hf := fresh "Hf" in
      let Hf0 := fresh "Hf0" in
      destruct (applyScale_finite_nonneg b s c) as (Hy & Hf & Hf0);
      [by vm_compute|by vm_compute|exact Hs|by vm_compute|by vm_compute
      |exact Hs0|by vm_compute|];
      apply (rounded_size_le_scaled (b * Math_min s c)%js m);
      [exact Hy|exact Hf|exact Hf0|by vm_compute|by vm_compute]
  end.

(** C5: every text variant's line height is [round (fontSize * m)] for the
    variant's multiplier [m], which is at least 1; the line height is then
    at least the font size whenever the scale factor is a non-negative number;
    and in general a rounded, finite, non-negative size multiplied by a finite
    factor of at least 1 and rounded again is at least that size. *)
Theorem lineHeight_is_rounded_multiple (s : number) :
  Forall (fun '(name, v) =>
            lineHeight v = Math_round (fontSize v * variantMultiplier name)%js /\
            (of_Z 1 <=? variantMultiplier name)%js = true /\
            (is_number s = true -> (of_Z 0 <=? s)%js = true ->
             (fontSize v <=? lineHeight v)%js = true))
    (textVariants (createScaledTheme s)) /\
  (forall y m : number,
     is_number y = true -> is_finite (Math_round y) = true ->
     (of_Z 0 <=? Math_round y)%js = true ->
     is_finite m = true -> (of_Z 1 <=? m)%js = true ->
     (Math_round y <=? Math_round (Math_round y * m))%js = true).
Proof.
  split; [|apply rounded_size_le_scaled].
  unfold createScaledTheme. cbn [textVariants].
  repeat (apply Forall_cons_2; [variant_entry s|]).
  apply Forall_nil_2.
Qed.

Lemma lineHeight_is_rounded_multiple_witness :
  Forall (fun '(name, v) =>
            lineHeight v = Math_round (fontSize v * variantMultiplier name)%js /\
            (fontSize v <=? lineHeight v)%js = true)
    (textVariants (createScaledTheme (of_Z 2))) /\
  (of_Z 67 <=? Math_round (of_Z 67 * dec 12 1))%js = true.
Proof.
  destruct (lineHeight_is_rounded_multiple (of_Z 2)) as [Hall Hgen]. split.
  - eapply Forall_impl; [exact Hall|].
    intros [name v] (Heq & _ & Hle). split; [exact Heq|].
    apply Hle; reflexivity.
  - apply (Hgen (of_Z 67) (dec 12 1)); reflexivity.
Defined.

End ThemeFacts.

(** * The scale reader and the hook *)

Module HookFacts.

Import JS JSFacts Hooks Inputs.

Lemma clamp_spec v lo hi :
  is_number v = true -> is_number lo = true -> is_number hi = true ->
  is_number (clamp v lo hi) = true /\
  mag (clamp v lo hi) = Z.min (Z.max (mag v) (mag lo)) (mag hi).
Proof.
  intros Hv Hlo Hhi. unfold clamp.
  destruct (Math_max_spec v lo Hv Hlo) as (Hn1 & Hm1 & _).
  destruct (Math_min_spec (Math_max v lo) hi Hn1 Hhi) as (Hn2 & Hm2 & _).
  split; [done|]. by rewrite Hm2, Hm1.
Qed.

(** C6: when [minScale > maxScale] the clamp returns [maxScale] whatever the
    reading. *)
Theorem clamp_degenerate_returns_max (v minScale maxScale : number) :
  is_number v = true -> is_number minScale = true -> is_number maxScale = true ->
  (maxScale <? minScale)%js = true ->
  clamp v minScale maxScale = maxScale.
Proof.
  intros Hv Hlo Hhi Hlt. apply ltb_mag in Hlt; [|done..].
  destruct (Math_max_spec v minScale Hv Hlo) as (Hn & Hm & _).
  unfold clamp, Math_min. rewrite compare_mag by done.
  destruct (Z.compare_spec (mag (Math_max v minScale)) (mag maxScale)); [lia..|done].
Qed.

Lemma clamp_degenerate_returns_max_witness :
  clamp (of_Z 1) (of_Z 2) (dec 8 1) = dec 8 1.
Proof.
  apply (clamp_degenerate_returns_max (of_Z 1) (of_Z 2) (dec 8 1)); reflexivity.
Defined.

(** What the two readers return, without the console. *)
Lemma getNativeFontScale_outcome env :
  (getNativeFontScale env).1 =
  match is_android (Platform_OS env), FontScaleModule env ≫= native_getFontScale with
  | true, Some (Returns v) => Returns v
  | _, _ => PixelRatio_getFontScale env
  end.
Proof.
  unfold getNativeFontScale.
  destruct (is_android _), (FontScaleModule env ≫= native_getFontScale) as [[v|e]|];
    try done.
Qed.

Lemma getFontScaleSync_outcome env :
  (getFontScaleSync env).1 =
  match is_android (Platform_OS env), FontScaleModule env ≫= native_getFontScaleSync with
  | true, Some (Returns v) => Returns v
  | _, _ => PixelRatio_getFontScale env
  end.
Proof.
  unfold getFontScaleSync.
  destruct (is_android _), (FontScaleModule env ≫= native_getFontScaleSync) as [[v|e]|];
    try done.
Qed.

Lemma getNativeFontScale_is_number env s :
  readings_are_numbers env = true ->
  (getNativeFontScale env).1 = Returns s -> is_number s = true.
Proof.
  intros [Hpix Hmod]%andb_prop. rewrite getNativeFontScale_outcome.
  destruct (is_android _); [|by intros Hr; rewrite Hr in Hpix].
  destruct (FontScaleModule env) as [[live sync]|]; cbn in *;
    [|by intros Hr; rewrite Hr in Hpix].
  apply andb_prop in Hmod as [Hlive _].
  destruct live as [[v|e]|]; cbn in *; [by intros [= <-]|..];
    by intros Hr; rewrite Hr in Hpix.
Qed.

Lemma getFontScaleSync_is_number env s :
  readings_are_numbers env = true ->
  (getFontScaleSync env).1 = Returns s -> is_number s = true.
Proof.
  intros [Hpix Hmod]%andb_prop. rewrite getFontScaleSync_outcome.
  destruct (is_android _); [|by intros Hr; rewrite Hr in Hpix].
  destruct (FontScaleModule env) as [[live sync]|]; cbn in *;
    [|by intros Hr; rewrite Hr in Hpix].
  apply andb_prop in Hmod as [_ Hsync].
  destruct sync as [[v|e]|]; cbn in *; [by intros [= <-]|..];
    by intros Hr; rewrite Hr in Hpix.
Qed.

Lemma native_reading_is_number env s :
  readings_are_numbers env = true -> native_reading env s -> is_number s = true.
Proof.
  intros Hok [Hs|Hs];
    [by apply (getFontScaleSync_is_number env)|by apply (getNativeFontScale_is_number env)].
Qed.

Lemma bind_outcome {A B} (m : M A) (f : A -> M B) :
  (m ≫= f).1 = match m.1 with Returns a => (f a).1 | Throws e => Throws e end.
Proof.
  destruct m as [[a|e] out]; cbn; [|done]. by destruct (f a).
Qed.

Lemma initialState_result options env count r :
  (initialState options env count).1 = Returns r ->
  exists actualScale cachedScale,
    (getFontScaleSync env).1 = Returns actualScale /\
    PixelRatio_getFontScale env = Returns cachedScale /\
    scale_and_correction options actualScale cachedScale r.
Proof.
  unfold initialState. rewrite bind_outcome.
  destruct (getFontScaleSync env).1 as [actualScale|e]; [|done].
  rewrite bind_outcome. unfold getCachedFontScale at 1. cbn [call fst].
  destruct (PixelRatio_getFontScale env) as [cachedScale|e]; [|done].
  cbn. intros [= <-]. by exists actualScale, cachedScale.
Qed.

Lemma updateFontScale_result options env h h' :
  (updateFontScale options env h).1 = Returns h' ->
  exists actualScale cachedScale,
    (getNativeFontScale env).1 = Returns actualScale /\
    PixelRatio_getFontScale env = Returns cachedScale /\
    scale_and_correction options actualScale cachedScale (state h').
Proof.
  unfold updateFontScale. rewrite bind_outcome.
  destruct (getNativeFontScale env).1 as [actualScale|e]; [|done].
  rewrite bind_outcome. unfold getCachedFontScale at 1. cbn [call fst].
  destruct (PixelRatio_getFontScale env) as [cachedScale|e]; [|done].
  cbn. intros [= <-]. by exists actualScale, cachedScale.
Qed.

Lemma getFontScale_result options env r :
  (getFontScale options env).1 = Returns r ->
  exists actualScale cachedScale,
    (getNativeFontScale env).1 = Returns actualScale /\
    PixelRatio_getFontScale env = Returns cachedScale /\
    scale_and_correction options actualScale cachedScale r.
Proof.
  unfold getFontScale. rewrite bind_outcome.
  destruct (getNativeFontScale env).1 as [actualScale|e]; [|done].
  rewrite bind_outcome. unfold getCachedFontScale at 1. cbn [call fst].
  destruct (PixelRatio_getFontScale env) as [cachedScale|e]; [|done].
  cbn. intros [= <-]. by exists actualScale, cachedScale.
Qed.

(** The readers can only fail with what the cached read throws. *)
Lemma getNativeFontScale_throws env e :
  (getNativeFontScale env).1 = Throws e -> PixelRatio_getFontScale env = Throws e.
Proof.
  rewrite getNativeFontScale_outcome.
  by destruct (is_android _), (FontScaleModule env ≫= native_getFontScale) as [[v|e']|].
Qed.

Lemma getFontScaleSync_throws env e :
  (getFontScaleSync env).1 = Throws e -> PixelRatio_getFontScale env = Throws e.
Proof.
  rewrite getFontScaleSync_outcome.
  by destruct (is_android _), (FontScaleModule env ≫= native_getFontScaleSync) as [[v|e']|].
Qed.

Lemma initialState_outcome options env count :
  (initialState options env count).1 =
  match (getFontScaleSync env).1, PixelRatio_getFontScale env with
  | Returns actualScale, Returns cachedScale =>
      let clampedScale := clamp actualScale (minScale_of options) (maxScale_of options) in
      Returns {| fontScale := clampedScale;
                 fontScaleCorrection :=
                   if negb (cachedScale === of_Z 0)%js
                   then (clampedScale / cachedScale)%js else of_Z 1;
                 cachedFontScale := cachedScale;
                 updateCount := Some count |}
  | Returns _, Throws e => Throws e
  | Throws e, _ => Throws e
  end.
Proof.
  unfold initialState. rewrite bind_outcome.
  destruct (getFontScaleSync env).1 as [actualScale|e]; [|done].
  rewrite bind_outcome. unfold getCachedFontScale at 1. cbn [call fst].
  by destruct (PixelRatio_getFontScale env) as [cachedScale|e].
Qed.

Lemma updateFontScale_outcome options env h :
  (updateFontScale options env h).1 =
  match (getNativeFontScale env).1, PixelRatio_getFontScale env with
  | Returns actualScale, Returns cachedScale =>
      let clampedScale := clamp actualScale (minScale_of options) (maxScale_of options) in
      Returns {| state :=
                   {| fontScale := clampedScale;
                      fontScaleCorrection :=
                        if negb (cachedScale === of_Z 0)%js
                        then (clampedScale / cachedScale)%js else of_Z 1;
                      cachedFontScale := cachedScale;
                      updateCount := Some (S (globalUpdateCount h)) |};
                 globalUpdateCount := S (globalUpdateCount h) |}
  | Returns _, Throws e => Throws e
  | Throws e, _ => Throws e
  end.
Proof.
  unfold updateFontScale. rewrite bind_outcome.
  destruct (getNativeFontScale env).1 as [actualScale|e]; [|done].
  rewrite bind_outcome. unfold getCachedFontScale at 1. cbn [call fst].
  by destruct (PixelRatio_getFontScale env) as [cachedScale|e].
Qed.

Lemma getFontScale_outcome options env :
  (getFontScale options env).1 =
  match (getNativeFontScale env).1, PixelRatio_getFontScale env with
  | Returns actualScale, Returns cachedScale =>
      let clampedScale := clamp actualScale (minScale_of options) (maxScale_of options) in
      Returns {| fontScale := clampedScale;
                 fontScaleCorrection :=
                   if negb (cachedScale === of_Z 0)%js
                   then (clampedScale / cachedScale)%js else of_Z 1;
                 cachedFontScale := cachedScale;
                 updateCount := None |}
  | Returns _, Throws e => Throws e
  | Throws e, _ => Throws e
  end.
Proof.
  unfold getFontScale. rewrite bind_outcome.
  destruct (getNativeFontScale env).1 as [actualScale|e]; [|done].
  rewrite bind_outcome. unfold getCachedFontScale at 1. cbn [call fst].
  by destruct (PixelRatio_getFontScale env) as [cachedScale|e].
Qed.

(** What an update publishes, and what an event does to the state. *)
Lemma settle_publishes options env h :
  publishes options true env (state h)
    (state (settle h (updateFontScale options env h))).
Proof.
  unfold publishes, settle. rewrite updateFontScale_outcome.
  by destruct (getNativeFontScale env).1, (PixelRatio_getFontScale env).
Qed.

Lemma handle_publishes options h ev :
  publishes options (runs_update options ev) (event_platform ev) (state h)
    (state (handle options h ev)).
Proof.
  destruct ev as [next env|env]; cbn [handle runs_update event_platform].
  - destruct (_ && _); [apply settle_publishes|done].
  - destruct (listenToDimensions_of options); [apply settle_publishes|done].
Qed.

Lemma states_after_length options h events :
  length (states_after options h events) = length events.
Proof.
  revert h. induction events as [|ev events IH]; intros h; [done|].
  cbn [states_after length]. by rewrite IH.
Qed.

(** The result published after the [i]-th event comes from handling that
    event in the state published just before. *)
Lemma states_after_lookup options h events i ev :
  events !! i = Some ev ->
  exists h', (state h :: states_after options h events) !! i = Some (state h') /\
             states_after options h events !! i = Some (state (handle options h' ev)).
Proof.
  revert h i. induction events as [|ev' events IH]; intros h i Hev; [done|].
  destruct i as [|i]; cbn [states_after] in *.
  - injection Hev as ->. by exists h.
  - apply (IH (handle options h ev')) in Hev as (h' & Hprev & Hnext). by exists h'.
Qed.

Lemma settle_update options P env h :
  P env ->
  clamps_a_reading options P (state h) ->
  clamps_a_reading options P (state (settle h (updateFontScale options env h))).
Proof.
  intros HP Hh. unfold settle.
  destruct (updateFontScale options env h).1 as [h'|e] eqn:Hu; [|done].
  apply updateFontScale_result in Hu as (actual & cached & Ha & _ & Hr & _).
  exists env, actual. split; [done|]. split; [by right|done].
Qed.

Lemma handle_clamps options P h ev :
  P (event_platform ev) ->
  clamps_a_reading options P (state h) ->
  clamps_a_reading options P (state (handle options h ev)).
Proof.
  intros HP Hh. destruct ev as [next env|env]; cbn [handle event_platform] in *.
  - destruct (_ && _); [by apply settle_update|done].
  - destruct (listenToDimensions_of options); [by apply settle_update|done].
Qed.

Lemma states_after_clamp options P h events :
  Forall P (event_platform <$> events) ->
  clamps_a_reading options P (state h) ->
  Forall (clamps_a_reading options P) (states_after options h events).
Proof.
  revert h. induction events as [|ev events IH]; intros h HP Hh; [by constructor|].
  rewrite fmap_cons in HP. apply Forall_cons in HP as [Hev HP].
  cbn [states_after]. pose proof (handle_clamps options P h ev Hev Hh).
  constructor; [done|]. by apply IH.
Qed.

Lemma useFontScale_clamps options P env mounted count events :
  Forall P (env :: mounted :: (event_platform <$> events)) ->
  Forall (clamps_a_reading options P) (useFontScale options env mounted count events).
Proof.
  intros [Henv [Hmounted Hevents]%Forall_cons]%Forall_cons. unfold useFontScale, mount.
  destruct (initialState options env count).1 as [st|e] eqn:Hi; [|by constructor].
  apply initialState_result in Hi as (actual & cached & Ha & _ & Hr & _).
  assert (clamps_a_reading options P st) as H0.
  { exists env, actual. split; [done|]. split; [by left|done]. }
  set (h0 := {| state := st; globalUpdateCount := count |}).
  assert (clamps_a_reading options P
            (state (if listenToAppState_of options
                    then settle h0 (updateFontScale options mounted h0) else h0))) as H1.
  { destruct (listenToAppState_of options); [by apply settle_update|done]. }
  constructor; [done|]. constructor; [done|]. by apply states_after_clamp.
Qed.

Lemma clamp_bounds s lo hi :
  is_number s = true -> is_number lo = true -> is_number hi = true ->
  (lo <=? hi)%js = true ->
  (lo <=? clamp s lo hi)%js = true /\
  (clamp s lo hi <=? hi)%js = true /\
  ((lo <=? s)%js = true -> (s <=? hi)%js = true -> (clamp s lo hi === s)%js = true).
Proof.
  intros Hs Hlo Hhi Hle. apply leb_mag in Hle; [|done..].
  destruct (clamp_spec s lo hi Hs Hlo Hhi) as [Hn Hm].
  split; [apply leb_mag; [done..|lia]|].
  split; [apply leb_mag; [done..|lia]|].
  intros H1%leb_mag H2%leb_mag; [|done..].
  apply strict_eq_mag; [done..|lia].
Qed.

(** C2: with [minScale <= maxScale], every result the hook publishes carries
    the clamp of a native reading; that scale lies between [minScale] and
    [maxScale] and is the value a consumer reads under the provider.  Each
    result carries its own reading: the initial state the clamp of the
    synchronous read made at render, the result after mounting and the
    result after each event the clamp of the live read that update made
    (and the previous result again when no update ran or it failed).  The
    hook publishes one result per render: two on mounting and one per event
    when the cached read at render returns.  For every reading [s] that is a
    number, [clamp s] lies between the bounds and is [s] when [s] does. *)
Theorem published_scale_is_clamped_reading
    (options : UseFontScaleOptions) (env mounted : Platform) (count : nat)
    (events : list Event) :
  is_number (minScale_of options) = true ->
  is_number (maxScale_of options) = true ->
  (minScale_of options <=? maxScale_of options)%js = true ->
  forallb readings_are_numbers (env :: mounted :: (event_platform <$> events)) = true ->
  let trace := useFontScale options env mounted count events in
  Forall (fun r : FontScaleResult =>
            (exists env' s,
               env' ∈ env :: mounted :: (event_platform <$> events) /\
               native_reading env' s /\
               fontScale r = clamp s (minScale_of options) (maxScale_of options) /\
               ((minScale_of options <=? s)%js = true ->
                (s <=? maxScale_of options)%js = true ->
                (fontScale r === s)%js = true)) /\
            (minScale_of options <=? fontScale r)%js = true /\
            (fontScale r <=? maxScale_of options)%js = true /\
            (ThemeProvider.useFontScaleValue
               [(ThemeProvider.ScaledThemeProvider r).1]).1 = Returns (fontScale r))
    trace /\
  (forall r0, trace !! 0%nat = Some r0 ->
     exists s, (getFontScaleSync env).1 = Returns s /\
               fontScale r0 = clamp s (minScale_of options) (maxScale_of options)) /\
  (forall r0 r1, trace !! 0%nat = Some r0 -> trace !! 1%nat = Some r1 ->
     publishes options (listenToAppState_of options) mounted r0 r1) /\
  (forall i ev previous r,
     events !! i = Some ev ->
     trace !! S i = Some previous -> trace !! S (S i) = Some r ->
     publishes options (runs_update options ev) (event_platform ev) previous r) /\
  match PixelRatio_getFontScale env with
  | Returns _ => length trace = (2 + length events)%nat
  | Throws _ => trace = []
  end /\
  (forall s, is_number s = true ->
     (minScale_of options <=? clamp s (minScale_of options) (maxScale_of options))%js = true /\
     (clamp s (minScale_of options) (maxScale_of options) <=? maxScale_of options)%js = true /\
     ((minScale_of options <=? s)%js = true -> (s <=? maxScale_of options)%js = true ->
      (clamp s (minScale_of options) (maxScale_of options) === s)%js = true)).
Proof.
  intros Hlo Hhi Hle Hok trace.
  split; [|split; [|split; [|split; [|split]]]].
  - pose proof (useFontScale_clamps options
                  (fun env' => env' ∈ env :: mounted :: (event_platform <$> events) /\
                               readings_are_numbers env' = true)
                  env mounted count events) as Hall.
    eapply Forall_impl; [apply Hall|].
    + apply Forall_forall. intros env' Hin. split; [done|].
      rewrite forallb_forall in Hok. apply Hok. by apply list_elem_of_In.
    + intros r (env' & s & [Hin Hnum] & Hread & Hr).
      pose proof (native_reading_is_number env' s Hnum Hread) as Hs.
      destruct (clamp_bounds s _ _ Hs Hlo Hhi Hle) as (Hb1 & Hb2 & Hb3).
      rewrite <- Hr in Hb1, Hb2, Hb3.
      split; [by exists env', s|]. done.
  - intros r0. unfold trace, useFontScale, mount.
    destruct (initialState options env count).1 as [st|e] eqn:Hi; [|done].
    intros [= <-].
    apply initialState_result in Hi as (actual & cached & Ha & _ & Hr & _).
    by exists actual.
  - intros r0 r1. unfold trace, useFontScale, mount.
    destruct (initialState options env count).1 as [st|e]; [|done].
    intros [= <-] [= <-]. unfold publishes.
    destruct (listenToAppState_of options); [apply settle_publishes|done].
  - intros i ev previous r Hev. unfold trace, useFontScale.
    destruct (mount options env mounted count) as [[h0 h1]|]; [|done].
    intros Hprev Hr.
    change ((state h1 :: states_after options h1 events) !! i = Some previous) in Hprev.
    change (states_after options h1 events !! i = Some r) in Hr.
    destruct (states_after_lookup options h1 events i ev Hev) as (h' & Hprev' & Hr').
    rewrite Hprev' in Hprev. rewrite Hr' in Hr.
    injection Hprev as <-. injection Hr as <-. apply handle_publishes.
  - unfold trace, useFontScale, mount. rewrite initialState_outcome.
    pose proof (getFontScaleSync_throws env) as Hsync.
    destruct (getFontScaleSync env).1 as [s|e], (PixelRatio_getFontScale env) as [c|e'];
      try done.
    + cbn [length]. by rewrite states_after_length.
    + by discriminate (Hsync e).
  - intros s Hs. by apply clamp_bounds.
Qed.

Lemma published_scale_is_clamped_reading_witness :
  let trace :=
    useFontScale defaults (stale (of_Z 1)) (stale (dec 115 2)) 0
      [AppStateChange "active" (stale (dec 35 1)); DimensionChange (stale (dec 13 1))] in
  Forall (fun r : FontScaleResult =>
            (minScale_of defaults <=? fontScale r)%js = true /\
            (fontScale r <=? maxScale_of defaults)%js = true) trace /\
  (forall r1, trace !! 1%nat = Some r1 ->
     fontScale r1 = clamp (dec 115 2) (dec 8 1) (dec 20 1)) /\
  (forall r2, trace !! 2%nat = Some r2 ->
     fontScale r2 = clamp (dec 35 1) (dec 8 1) (dec 20 1)) /\
  (forall r3, trace !! 3%nat = Some r3 ->
     fontScale r3 = clamp (dec 13 1) (dec 8 1) (dec 20 1)) /\
  length trace = 4%nat.
Proof.
  intros trace.
  destruct (published_scale_is_clamped_reading defaults (stale (of_Z 1))
              (stale (dec 115 2)) 0
              [AppStateChange "active" (stale (dec 35 1));
               DimensionChange (stale (dec 13 1))])
    as (Hall & _ & Hmount & Hstep & Hlen & _); [reflexivity..|].
  split; [|split; [|split; [|split]]].
  - eapply Forall_impl; [exact Hall|]. intros r (_ & Hlo & Hhi & _). by split.
  - intros r1 H1.
    exact (Hmount _ r1 eq_refl H1).
  - intros r2 H2.
    exact (Hstep 0%nat (AppStateChange "active" (stale (dec 35 1))) _ r2
             eq_refl eq_refl H2).
  - intros r3 H3.
    exact (Hstep 1%nat (DimensionChange (stale (dec 13 1))) _ r3
             eq_refl eq_refl H3).
  - exact Hlen.
Defined.

(** C3 (as the code has it): the reader returns what the live read returned
    on Android when the module is present and the read succeeds, and in every
    other case (live read rejected, module or method absent, another
    platform) exactly what the cached read yields, a thrown error included;
    the Kotlin module resolves 1.0 when its own read throws, so in that case
    the reader returns 1.0 without consulting the cached value. *)
Theorem scale_reader_fallbacks :
  (forall env : Platform,
     (getNativeFontScale env).1 =
     match is_android (Platform_OS env), FontScaleModule env ≫= native_getFontScale with
     | true, Some (Returns live) => Returns live
     | _, _ => PixelRatio_getFontScale env
     end) /\
  (forall (env : Platform) (e e' : string),
     is_android (Platform_OS env) = true ->
     FontScaleModule env ≫= native_getFontScale = Some (Throws e) ->
     PixelRatio_getFontScale env = Throws e' ->
     (getNativeFontScale env).1 = Throws e') /\
  (forall ctx : FontScaleModule_kt.ReactApplicationContext,
     FontScaleModule_kt.getFontScale ctx =
     Returns match FontScaleModule_kt.readFontScale ctx with
             | Returns fontScale => fontScale
             | Throws _ => of_Z 1
             end) /\
  (forall (ctx : FontScaleModule_kt.ReactApplicationContext) (cached : outcome number)
          (e : string),
     FontScaleModule_kt.readFontScale ctx = Throws e ->
     (getNativeFontScale (android_platform ctx cached)).1 = Returns (of_Z 1)).
Proof.
  split; [apply getNativeFontScale_outcome|].
  split.
  { intros env e e' Hos Hlive Hcached.
    by rewrite getNativeFontScale_outcome, Hos, Hlive. }
  split.
  { intros ctx. unfold FontScaleModule_kt.getFontScale.
    by destruct (FontScaleModule_kt.readFontScale ctx). }
  intros ctx cached e Hread. rewrite getNativeFontScale_outcome.
  cbn. unfold FontScaleModule_kt.getFontScale. by rewrite Hread.
Qed.

Lemma scale_reader_fallbacks_witness :
  (getNativeFontScale
     {| Platform_OS := android;
        FontScaleModule :=
          Some {| native_getFontScale := Some (Throws "rejected");
                  native_getFontScaleSync := None |};
        PixelRatio_getFontScale := Throws "PixelRatio failed" |}).1
  = Throws "PixelRatio failed" /\
  (getNativeFontScale
     (android_platform
        {| FontScaleModule_kt.currentActivity_fontScale := Throws "no resources";
           FontScaleModule_kt.resources_fontScale := Returns (dec 13 1) |}
        (Returns (dec 115 2)))).1
  = Returns (of_Z 1).
Proof.
  destruct scale_reader_fallbacks as (_ & Hboth & _ & Hkotlin). split.
  - apply (Hboth _ "rejected"%string); reflexivity.
  - apply (Hkotlin _ _ "no resources"%string). reflexivity.
Defined.

(** When the live read is rejected and the cached read throws, the reader
    logs its warning and the second error reaches the caller: no 1.0. *)
Lemma both_reads_throw_propagates :
  getNativeFontScale both_reads_throw =
  (Throws "PixelRatio failed",
   [Warn "FontScaleModule.getFontScale() failed, falling back to PixelRatio:"]) /\
  (getNativeFontScale both_reads_throw).1 <> Returns (of_Z 1).
Proof. split; [reflexivity|discriminate]. Qed.

(** C10 (as the code has it): in every result built by the initial state,
    by an update or by [getFontScale], the correction is the quotient
    [fontScale / cachedFontScale] when [cachedFontScale !== 0] and 1
    otherwise, so that no division by zero is evaluated. *)
Theorem correction_is_guarded_quotient
    (options : UseFontScaleOptions) (env : Platform) (count : nat) (h : HookState)
    (r : FontScaleResult) :
  (initialState options env count).1 = Returns r \/
  (exists h', (updateFontScale options env h).1 = Returns h' /\ r = state h') \/
  (getFontScale options env).1 = Returns r ->
  ((cachedFontScale r === of_Z 0)%js = false ->
   fontScaleCorrection r = (fontScale r / cachedFontScale r)%js) /\
  ((cachedFontScale r === of_Z 0)%js = true ->
   fontScaleCorrection r = of_Z 1).
Proof.
  intros Hr.
  assert (exists actual cached, scale_and_correction options actual cached r)
    as (actual & cached & _ & Hc & Hcorr).
  { destruct Hr as [Hr|[(h' & Hr & ->)|Hr]].
    - apply initialState_result in Hr as (a & c & _ & _ & ?). by exists a, c.
    - apply updateFontScale_result in Hr as (a & c & _ & _ & ?). by exists a, c.
    - apply getFontScale_result in Hr as (a & c & _ & _ & ?). by exists a, c. }
  rewrite Hcorr, Hc. split; by intros ->.
Qed.

Lemma correction_is_guarded_quotient_witness :
  ((dec 15 1 === of_Z 0)%js = false ->
   dec 12 1 = (dec 18 1 / dec 15 1)%js) /\
  ((dec 15 1 === of_Z 0)%js = true -> dec 12 1 = of_Z 1).
Proof.
  apply (correction_is_guarded_quotient defaults scale_18_cached_15 0
           {| state := {| fontScale := of_Z 1; fontScaleCorrection := of_Z 1;
                          cachedFontScale := of_Z 1; updateCount := Some 0%nat |};
              globalUpdateCount := 0 |}
           {| fontScale := dec 18 1; fontScaleCorrection := dec 12 1;
              cachedFontScale := dec 15 1; updateCount := None |}).
  right. right. reflexivity.
Defined.

(** With the device at 1.8 and a cached scale of 1.5 the correction is 1.2,
    and 1.2 * 1.5 is not 1.8 in binary64 (it is 1.7999999999999998). *)
Lemma correction_times_cached_differs :
  (getFontScale defaults scale_18_cached_15).1 =
  Returns {| fontScale := dec 18 1; fontScaleCorrection := dec 12 1;
             cachedFontScale := dec 15 1; updateCount := None |} /\
  (dec 15 1 === of_Z 0)%js = false /\
  (dec 12 1 * dec 15 1 === dec 18 1)%js = false /\
  (dec 12 1 * dec 15 1)%js = S754_finite false 8106479329266892 (-52) /\
  dec 18 1 = S754_finite false 8106479329266893 (-52).
Proof. repeat split; reflexivity. Qed.

End HookFacts.

(** * The context *)

Module ThemeProviderFacts.

Import JS Hooks ThemeProvider.

(** C7, on the code: outside any provider [useContext] yields the default 1
    given to [createContext], which is not [undefined]; the hook returns 1
    and writes nothing to the console. *)
Theorem useFontScaleValue_outside_provider :
  useContext FontScaleContext [] = Some (of_Z 1) /\
  useFontScaleValue [] = (Returns (of_Z 1), []).
Proof. split; reflexivity. Qed.

(** The warning is written only under a provider whose value is
    [undefined]; [ScaledThemeProvider] always provides a number. *)
Lemma useFontScaleValue_warns_only_on_undefined providers :
  (useFontScaleValue providers).2 <> [] -> head providers = Some None.
Proof.
  unfold useFontScaleValue. by destruct providers as [|[v|] providers].
Qed.

End ThemeProviderFacts.

(** * Further properties of the code *)

(** ** More about JavaScript numbers *)

Module MoreJSFacts.

Import JS JSFacts.

Lemma SFcompare_nan_r x : SFcompare x NaN = None.
Proof. by destruct x. Qed.

Lemma neg_spec x :
  is_number x = true -> is_number (- x)%js = true /\ mag (- x)%js = - mag x.
Proof.
  unfold is_number, numeric.
  destruct x as [s|s| |s m e]; cbn [neg SFopp valid_binary SF_is_nan negb Zval andb];
    intros Hx; try done; (split; [done|]); destruct s; cbn [negb cond_Zopp]; lia.
Qed.

Lemma leb_trans x y z :
  is_number x = true -> is_number y = true -> is_number z = true ->
  (x <=? y)%js = true -> (y <=? z)%js = true -> (x <=? z)%js = true.
Proof.
  intros Hx Hy Hz Hxy%leb_mag Hyz%leb_mag; [|done..].
  apply leb_mag; [done..|lia].
Qed.

(** Multiplication is also monotone in its first factor when the second is
    not negative. *)
Lemma mul_mono_l b1 b2 x :
  is_finite b1 = true -> is_finite b2 = true -> is_finite x = true ->
  (of_Z 0 <=? x)%js = true -> (b1 <=? b2)%js = true ->
  (b1 * x <=? b2 * x)%js = true.
Proof.
  intros Hb1 Hb2 Hx Hx0 Hb.
  pose proof (is_finite_is_number _ Hb1). pose proof (is_finite_is_number _ Hb2).
  pose proof (is_finite_is_number _ Hx).
  apply leb_mag in Hx0; [|done..]. rewrite mag_0 in Hx0.
  apply leb_mag in Hb; [|done..].
  destruct (mul_spec b1 x Hb1 Hx) as [Hn1 Hm1].
  destruct (mul_spec b2 x Hb2 Hx) as [Hn2 Hm2].
  apply leb_mag; [done..|]. rewrite Hm1, Hm2.
  apply round_prod_mono; [apply prec_gt_1|apply prec_lt_emax|].
  apply Z.mul_le_mono_nonneg_r; lia.
Qed.

Lemma Math_min_mono_r x c1 c2 :
  is_number x = true -> is_number c1 = true -> is_number c2 = true ->
  (c1 <=? c2)%js = true -> (Math_min x c1 <=? Math_min x c2)%js = true.
Proof.
  intros Hx Hc1 Hc2 Hc%leb_mag; [|done..].
  destruct (Math_min_spec x c1 Hx Hc1) as (Hn1 & Hm1 & _).
  destruct (Math_min_spec x c2 Hx Hc2) as (Hn2 & Hm2 & _).
  apply leb_mag; [done..|]. lia.
Qed.

(** The smaller of a non-negative number and a finite non-negative cap is
    finite and non-negative. *)
Lemma Math_min_nonneg s c :
  is_number s = true -> is_finite c = true ->
  (of_Z 0 <=? s)%js = true -> (of_Z 0 <=? c)%js = true ->
  is_finite (Math_min s c) = true /\ (of_Z 0 <=? Math_min s c)%js = true.
Proof.
  intros Hs Hc Hs0 Hc0. pose proof (is_finite_is_number _ Hc) as Hnc.
  apply leb_mag in Hs0; [|done..]. apply leb_mag in Hc0; [|done..].
  rewrite mag_0 in *.
  destruct (Math_min_spec s c Hs Hnc) as (Hn & Hm & _).
  pose proof (is_finite_bound c Hc).
  split.
  - apply is_number_finite; [done|]. lia.
  - apply leb_mag; [done..|]. rewrite mag_0. lia.
Qed.


End MoreJSFacts.

(** ** More about the derived tokens *)

Module ThemeExtras.

Import JS JSFacts MoreJSFacts Theme ThemeFacts.

(** Sizes compare as the exact products [base * min (scale, cap)] do. *)
Lemma applyScale_le b1 s1 c1 b2 s2 c2 :
  is_finite b1 = true -> is_finite s1 = true -> is_finite c1 = true ->
  is_finite b2 = true -> is_finite s2 = true -> is_finite c2 = true ->
  mag b1 * Z.min (mag s1) (mag c1) <= mag b2 * Z.min (mag s2) (mag c2) ->
  (applyScale b1 s1 c1 <=? applyScale b2 s2 c2)%js = true.
Proof.
  intros Hb1 Hs1 Hc1 Hb2 Hs2 Hc2 Hle.
  destruct (applyScale_mag b1 s1 c1 Hb1 Hs1 Hc1) as [Hn1 Hm1].
  destruct (applyScale_mag b2 s2 c2 Hb2 Hs2 Hc2) as [Hn2 Hm2].
  apply leb_mag; [done..|]. rewrite Hm1, Hm2.
  by apply round_half_up_mono, round_prod_mono; [apply prec_gt_1|apply prec_lt_emax|].
Qed.

Lemma nonneg_mag x : is_number x = true -> (of_Z 0 <=? x)%js = true -> 0 <= mag x.
Proof. intros Hx H0%leb_mag; [|done..]. by rewrite mag_0 in H0. Qed.

(** X1: for a non-negative base the derived size never exceeds the size
    derived at the cap itself, whatever the scale factor; and it is not
    negative when scale factor and cap are not. *)
Theorem applyScale_within_cap (b s c : number) :
  is_finite b = true -> is_finite s = true -> is_finite c = true ->
  (of_Z 0 <=? b)%js = true ->
  (applyScale b s c <=? applyScale b c c)%js = true /\
  ((of_Z 0 <=? s)%js = true -> (of_Z 0 <=? c)%js = true ->
   (of_Z 0 <=? applyScale b s c)%js = true).
Proof.
  intros Hb Hs Hc Hb0.
  pose proof (nonneg_mag b (is_finite_is_number _ Hb) Hb0).
  split.
  - apply applyScale_le; [done..|]. apply Z.mul_le_mono_nonneg_l; lia.
  - intros Hs0 Hc0.
    pose proof (nonneg_mag s (is_finite_is_number _ Hs) Hs0).
    pose proof (nonneg_mag c (is_finite_is_number _ Hc) Hc0).
    destruct (applyScale_mag b s c Hb Hs Hc) as [Hn Hm].
    apply leb_mag; [done..|]. rewrite mag_0, Hm.
    replace 0 with (round_half_up (round_prod prec emax 0)) at 1 by by vm_compute.
    apply round_half_up_mono, round_prod_mono; [apply prec_gt_1|apply prec_lt_emax|].
    apply Z.mul_nonneg_nonneg; lia.
Qed.

Lemma applyScale_within_cap_witness :
  (applyScale (of_Z 48) (dec 35 1) (scaleCaps heading)
   <=? applyScale (of_Z 48) (scaleCaps heading) (scaleCaps heading))%js = true /\
  (of_Z 0 <=? applyScale (of_Z 48) (dec 35 1) (scaleCaps heading))%js = true.
Proof.
  destruct (applyScale_within_cap (of_Z 48) (dec 35 1) (scaleCaps heading))
    as [Hcap Hpos]; [reflexivity..|].
  split; [exact Hcap|]. apply Hpos; reflexivity.
Defined.

(** X2: for a non-negative scale factor and cap a larger base size never
    derives to a smaller size, and for a non-negative base a larger cap never
    derives to a smaller size. *)
Theorem applyScale_monotone_in_base_and_cap (b1 b2 s c1 c2 : number) :
  is_finite b1 = true -> is_finite b2 = true -> is_finite s = true ->
  is_finite c1 = true -> is_finite c2 = true ->
  ((of_Z 0 <=? s)%js = true -> (of_Z 0 <=? c1)%js = true -> (b1 <=? b2)%js = true ->
   (applyScale b1 s c1 <=? applyScale b2 s c1)%js = true) /\
  ((of_Z 0 <=? b1)%js = true -> (c1 <=? c2)%js = true ->
   (applyScale b1 s c1 <=? applyScale b1 s c2)%js = true).
Proof.
  intros Hb1 Hb2 Hs Hc1 Hc2.
  pose proof (is_finite_is_number _ Hb1). pose proof (is_finite_is_number _ Hb2).
  pose proof (is_finite_is_number _ Hs). pose proof (is_finite_is_number _ Hc1).
  pose proof (is_finite_is_number _ Hc2).
  split.
  - intros Hs0%nonneg_mag Hc0%nonneg_mag Hb%leb_mag; [|done..].
    apply applyScale_le; [done..|]. apply Z.mul_le_mono_nonneg_r; lia.
  - intros Hb0%nonneg_mag Hc%leb_mag; [|done..].
    apply applyScale_le; [done..|]. apply Z.mul_le_mono_nonneg_l; lia.
Qed.

Lemma applyScale_monotone_in_base_and_cap_witness :
  (applyScale (of_Z 18) (dec 13 1) (scaleCaps heading)
   <=? applyScale (of_Z 20) (dec 13 1) (scaleCaps heading))%js = true /\
  (applyScale (of_Z 14) (of_Z 2) (scaleCaps button)
   <=? applyScale (of_Z 14) (of_Z 2) (scaleCaps body))%js = true.
Proof.
  split.
  - apply (applyScale_monotone_in_base_and_cap
             (of_Z 18) (of_Z 20) (dec 13 1) (scaleCaps heading) (scaleCaps heading));
      reflexivity.
  - apply (applyScale_monotone_in_base_and_cap
             (of_Z 14) (of_Z 14) (of_Z 2) (scaleCaps button) (scaleCaps body));
      reflexivity.
Defined.

(** X3: within each category the order of the size names is kept at every
    non-negative scale factor: xs <= sm, md <= lg and xl <= 2xl <= ... <=
    6xl. *)
Theorem font_sizes_ordered_within_category (s : number) :
  is_finite s = true -> (of_Z 0 <=? s)%js = true ->
  let sizes := createScaledFontSizes s in
  (xs sizes <=? sm sizes)%js = true /\
  (md sizes <=? lg sizes)%js = true /\
  (xl sizes <=? _2xl sizes)%js = true /\
  (_2xl sizes <=? _3xl sizes)%js = true /\
  (_3xl sizes <=? _4xl sizes)%js = true /\
  (_4xl sizes <=? _5xl sizes)%js = true /\
  (_5xl sizes <=? _6xl sizes)%js = true.
Proof.
  intros Hs Hs0.
  pose proof (nonneg_mag s (is_finite_is_number _ Hs) Hs0) as Hs0'.
  assert (forall b1 b2 c,
            is_finite b1 = true -> is_finite b2 = true -> is_finite c = true ->
            (of_Z 0 <=? c)%js = true -> (b1 <=? b2)%js = true ->
            (applyScale b1 s c <=? applyScale b2 s c)%js = true) as Hmono.
  { intros b1 b2 c Hb1 Hb2 Hc Hc0 Hb.
    pose proof (nonneg_mag c (is_finite_is_number _ Hc) Hc0).
    apply leb_mag in Hb; [|by apply is_finite_is_number..].
    apply applyScale_le; [done..|]. apply Z.mul_le_mono_nonneg_r; lia. }
  cbn [createScaledFontSizes xs sm md lg xl _2xl _3xl _4xl _5xl _6xl].
  repeat split; apply Hmono; by vm_compute.
Qed.

Lemma font_sizes_ordered_within_category_witness :
  let sizes := createScaledFontSizes (dec 17 1) in
  (xs sizes <=? sm sizes)%js = true /\
  (md sizes <=? lg sizes)%js = true /\
  (xl sizes <=? _2xl sizes)%js = true /\
  (_2xl sizes <=? _3xl sizes)%js = true /\
  (_3xl sizes <=? _4xl sizes)%js = true /\
  (_4xl sizes <=? _5xl sizes)%js = true /\
  (_5xl sizes <=? _6xl sizes)%js = true.
Proof.
  apply (font_sizes_ordered_within_category (dec 17 1)); reflexivity.
Defined.

(** Past its cap a size stands still while a size with a larger cap keeps
    growing: once the second is ahead at [s0], it stays ahead. *)
Lemma capped_size_overtaken bh ch bb cb s0 s :
  is_finite bh = true -> is_finite ch = true -> is_finite bb = true ->
  is_finite cb = true -> is_finite s0 = true -> is_finite s = true ->
  (of_Z 0 <=? bb)%js = true -> (ch <=? s0)%js = true -> (s0 <=? s)%js = true ->
  (applyScale bh ch ch <? applyScale bb s0 cb)%js = true ->
  (applyScale bh s ch <? applyScale bb s cb)%js = true.
Proof.
  intros Hbh Hch Hbb Hcb Hs0 Hs Hbb0 Hcs0 Hs0s Hgap.
  pose proof (is_finite_is_number _ Hch). pose proof (is_finite_is_number _ Hs0).
  pose proof (is_finite_is_number _ Hs). pose proof (is_finite_is_number _ Hbb).
  apply nonneg_mag in Hbb0; [|done].
  apply leb_mag in Hcs0; [|done..]. apply leb_mag in Hs0s; [|done..].
  destruct (applyScale_mag bh s ch Hbh Hs Hch) as [Hnx Hmx].
  destruct (applyScale_mag bh ch ch Hbh Hch Hch) as [Hnx' Hmx'].
  destruct (applyScale_mag bb s cb Hbb Hs Hcb) as [Hnl Hml].
  destruct (applyScale_mag bb s0 cb Hbb Hs0 Hcb) as [Hnl' Hml'].
  apply ltb_mag in Hgap; [|done..].
  apply ltb_mag; [done..|].
  assert (mag (applyScale bh s ch) = mag (applyScale bh ch ch)) as ->.
  { rewrite Hmx, Hmx'. rewrite Z.min_r, Z.min_id by lia. reflexivity. }
  eapply Z.lt_le_trans; [exact Hgap|].
  rewrite Hml, Hml'.
  apply round_half_up_mono, round_prod_mono; [apply prec_gt_1|apply prec_lt_emax|].
  apply Z.mul_le_mono_nonneg_l; lia.
Qed.

(** X4: across categories the order is not kept: from a scale factor of 1.6
    on, the body size lg (base 16, cap 2.0) is larger than the heading size
    xl (base 18, cap 1.4). *)
Theorem lg_exceeds_xl_from_1_6 (s : number) :
  is_finite s = true -> (dec 16 1 <=? s)%js = true ->
  (xl (createScaledFontSizes s) <? lg (createScaledFontSizes s))%js = true.
Proof.
  intros Hs Hs16.
  apply (capped_size_overtaken (of_Z 18) (scaleCaps heading) (of_Z 16) (scaleCaps body)
           (dec 16 1) s); try exact Hs; try exact Hs16; by vm_compute.
Qed.

Lemma lg_exceeds_xl_from_1_6_witness :
  (xl (createScaledFontSizes (of_Z 2)) <? lg (createScaledFontSizes (of_Z 2)))%js = true /\
  xl (createScaledFontSizes (of_Z 2)) = of_Z 25 /\
  lg (createScaledFontSizes (of_Z 2)) = of_Z 32.
Proof.
  split; [|split; reflexivity].
  apply (lg_exceeds_xl_from_1_6 (of_Z 2)); reflexivity.
Defined.

(** X5: at a scale factor of 1 every integer base size below 2^53 in
    magnitude is derived unchanged, under any cap of at least 1. *)
Theorem applyScale_at_scale_1 (n : Z) (c : number) :
  - 2 ^ 53 < n < 2 ^ 53 -> is_number c = true -> (of_Z 1 <=? c)%js = true ->
  (applyScale (of_Z n) (of_Z 1) c === of_Z n)%js = true.
Proof.
  intros Hn Hc Hc1.
  destruct (of_Z_spec n Hn) as [Hfn Hmn].
  assert (is_finite (of_Z 1) = true) as Hf1 by by vm_compute.
  pose proof (is_finite_is_number _ Hf1) as Hn1.
  apply leb_mag in Hc1; [|done..].
  destruct (Math_min_spec (of_Z 1) c Hn1 Hc) as (Hnm & Hmm & _).
  rewrite Z.min_l in Hmm by lia. rewrite mag_1 in Hmm.
  assert (is_finite (Math_min (of_Z 1) c) = true) as Hfm.
  { apply is_number_finite; [done|]. rewrite Hmm, <- mag_1. by apply is_finite_bound. }
  unfold applyScale.
  destruct (mul_spec (of_Z n) _ Hfn Hfm) as [Hnp Hmp].
  destruct (Math_round_spec _ Hnp) as (Hnr & Hmr & _).
  apply strict_eq_mag; [done|by apply is_finite_is_number|].
  rewrite Hmr, Hmp, Hmm.
  rewrite (round_prod_representable prec emax prec_gt_1 prec_lt_emax _ Hfn).
  rewrite Hmn. apply round_half_up_integer.
Qed.

Lemma applyScale_at_scale_1_witness :
  (applyScale (of_Z 48) (of_Z 1) (scaleCaps heading) === of_Z 48)%js = true.
Proof.
  apply (applyScale_at_scale_1 48 (scaleCaps heading)); [lia|reflexivity..].
Defined.



(** X7: NaN is not filtered: a NaN base, scale factor or cap gives a NaN
    size, so at a NaN scale factor every font size and line height of the
    theme is NaN. *)
Theorem applyScale_propagates_NaN :
  (forall b s c : number,
     applyScale NaN s c = NaN /\ applyScale b NaN c = NaN /\ applyScale b s NaN = NaN) /\
  Forall (fun '(name, v) => fontSize v = NaN /\ lineHeight v = NaN)
    (textVariants (createScaledTheme NaN)).
Proof.
  split.
  - intros b s c. unfold applyScale, Math_min. split; [|split].
    + by destruct (SFcompare s c) as [[]|]; [destruct (is_neg_zero c)|..].
    + cbn. by destruct b.
    + rewrite SFcompare_nan_r. by destruct b.
  - unfold createScaledTheme. cbn [textVariants].
    repeat (apply Forall_cons_2; [split; reflexivity|]). apply Forall_nil_2.
Qed.

(** *** The spacing table as a map *)

Lemma dom_foldl_scaleEntry s entries (acc : gmap string number) :
  dom (foldl (scaleEntry s) acc entries) = dom acc ∪ list_to_set entries.*1.
Proof.
  revert acc. induction entries as [|[k v] entries IH]; intros acc.
  - cbn. by rewrite (right_id_L ∅ (∪)).
  - cbn [foldl]. rewrite IH, fmap_cons. cbn [fst list_to_set].
    unfold scaleEntry.
    destruct (v === of_Z 0)%js; rewrite dom_insert_L;
      by rewrite (comm_L (∪) {[k]} (dom acc)), (assoc_L (∪)).
Qed.

Lemma baseSpacing_keys :
  baseSpacing.*1 =
  ["none"; "xs"; "sm"; "md"; "lg"; "xl"; "2xl"; "3xl"; "4xl"; "5xl"; "6xl"]%string.
Proof. reflexivity. Qed.

Lemma createScaledSpacing_dom s key :
  key ∈ dom (createScaledSpacing s) <->
  key ∈ baseSpacing.*1 \/ key ∈ ["-xs"; "-sm"; "-md"; "-lg"; "-xl"; "-2xl"]%string.
Proof.
  unfold createScaledSpacing.
  rewrite !dom_insert_L, dom_foldl_scaleEntry, dom_empty_L.
  set_unfold. tauto.
Qed.

(** X8: for every scale factor the spacing table holds exactly the eleven
    keys of [baseSpacing] and the six negative keys -xs ... -2xl; any other
    key (there is no -3xl, for one) is absent. *)
Theorem spacing_keys (s : number) (key : string) :
  createScaledSpacing s !! key = None <->
  key ∉ [ "none"; "xs"; "sm"; "md"; "lg"; "xl"; "2xl"; "3xl"; "4xl"; "5xl"; "6xl";
          "-xs"; "-sm"; "-md"; "-lg"; "-xl"; "-2xl" ]%string.
Proof.
  rewrite <- not_elem_of_dom, createScaledSpacing_dom, baseSpacing_keys.
  set_unfold. tauto.
Qed.

Lemma spacing_keys_witness :
  createScaledSpacing (dec 13 1) !! "-3xl"%string = None /\
  createScaledSpacing (dec 13 1) !! "-2xl"%string <> None.
Proof.
  split.
  - apply (spacing_keys (dec 13 1) "-3xl"). by apply (bool_decide_unpack _).
  - intros Hnone. apply (spacing_keys (dec 13 1) "-2xl") in Hnone.
    apply Hnone. by apply (bool_decide_unpack _).
Defined.

(* What [createScaledSpacing] stores for a base value. *)
Local Abbreviation derivedSpacing s value :=
  (if (value === of_Z 0)%js then of_Z 0 else applyScale value s (scaleCaps spacing))
  (only parsing).

Lemma baseSpacing_entries_ok :
  Forall (fun '(key, value) =>
            String.prefix "-" key = false /\ is_finite value = true /\
            (of_Z 0 <=? value)%js = true /\
            is_finite (applyScale value (scaleCaps spacing) (scaleCaps spacing)) = true)
    baseSpacing.
Proof.
  unfold baseSpacing. repeat (apply Forall_cons_2; [by vm_compute|]). apply Forall_nil_2.
Qed.

Lemma derivedSpacing_nonneg s key value :
  is_number s = true -> (of_Z 0 <=? s)%js = true -> (key, value) ∈ baseSpacing ->
  is_number (derivedSpacing s value) = true /\
  (of_Z 0 <=? derivedSpacing s value)%js = true.
Proof.
  intros Hs Hs0 Hin.
  pose proof baseSpacing_entries_ok as Hok. rewrite Forall_forall in Hok.
  destruct (Hok _ Hin) as (_ & Hf & H0 & Hcap).
  destruct (value === of_Z 0)%js; [by vm_compute|].
  destruct (applyScale_finite_nonneg value s (scaleCaps spacing)) as (_ & Hfin & Hpos);
    [done|by vm_compute|done|done|by vm_compute|done|done|].
  split; [by apply is_finite_is_number|done].
Qed.

Local Tactic Notation "negative_entry" constr(s) constr(key) constr(value) integer(n) :=
  exists value; split; [do n apply list_elem_of_further; apply list_elem_of_here|];
  unfold createScaledSpacing;
  rewrite ?lookup_insert_ne by done; rewrite lookup_insert_eq;
  unfold negated; rewrite ?lookup_insert_ne by done;
  rewrite (foldl_scaleEntry_lookup s baseSpacing ∅ key value);
  [reflexivity|apply baseSpacing_keys_NoDup
  |do n apply list_elem_of_further; apply list_elem_of_here].

Lemma createScaledSpacing_negative s :
  Forall (fun '(negative, positive) =>
            exists value, (positive, value) ∈ baseSpacing /\
              createScaledSpacing s !! negative = Some (- derivedSpacing s value)%js)
    [ ("-xs", "xs"); ("-sm", "sm"); ("-md", "md");
      ("-lg", "lg"); ("-xl", "xl"); ("-2xl", "2xl") ]%string.
Proof.
  repeat apply Forall_cons_2; [..|apply Forall_nil_2].
  - negative_entry s "xs"%string (of_Z 4) 1.
  - negative_entry s "sm"%string (of_Z 8) 2.
  - negative_entry s "md"%string (of_Z 12) 3.
  - negative_entry s "lg"%string (of_Z 16) 4.
  - negative_entry s "xl"%string (of_Z 20) 5.
  - negative_entry s "2xl"%string (of_Z 24) 6.
Qed.

(** X9: for a non-negative scale factor no spacing token has the wrong sign:
    the values under the negative keys are at most 0 and all the others are
    at least 0. *)
Theorem spacing_signs (s : number) :
  is_number s = true -> (of_Z 0 <=? s)%js = true ->
  map_Forall (fun key v =>
                if String.prefix "-" key
                then (v <=? of_Z 0)%js = true
                else (of_Z 0 <=? v)%js = true)
    (createScaledSpacing s).
Proof.
  intros Hs Hs0 key v Hlook.
  assert (key ∈ dom (createScaledSpacing s)) as Hdom by (apply elem_of_dom; eauto).
  apply createScaledSpacing_dom in Hdom as [Hbase|Hneg].
  - apply list_elem_of_fmap in Hbase as ([k value] & -> & Hin). cbn [fst] in *.
    pose proof baseSpacing_entries_ok as Hok. rewrite Forall_forall in Hok.
    destruct (Hok _ Hin) as (-> & _).
    rewrite (createScaledSpacing_base s k value Hin) in Hlook.
    injection Hlook as <-.
    by apply (derivedSpacing_nonneg s k value).
  - pose proof (createScaledSpacing_negative s) as Hall. rewrite Forall_forall in Hall.
    assert (exists positive,
              (key, positive) ∈ [ ("-xs", "xs"); ("-sm", "sm"); ("-md", "md");
                                  ("-lg", "lg"); ("-xl", "xl"); ("-2xl", "2xl") ]%string
              /\ String.prefix "-" key = true) as (positive & Hpair & ->).
    { repeat (apply elem_of_cons in Hneg as [->|Hneg]);
        [eexists; split; [|reflexivity];
         repeat first [apply list_elem_of_here|apply list_elem_of_further]..
        |by apply elem_of_nil in Hneg]. }
    destruct (Hall _ Hpair) as (value & Hin & Hval).
    destruct (derivedSpacing_nonneg s positive value Hs Hs0 Hin) as [Hn H0].
    revert Hval Hn H0. generalize (derivedSpacing s value). intros d Hval Hn H0.
    rewrite Hval in Hlook. injection Hlook as <-.
    destruct (neg_spec _ Hn) as [Hn' Hm'].
    apply nonneg_mag in H0; [|done].
    apply leb_mag; [done|by vm_compute|]. rewrite Hm', mag_0. lia.
Qed.

Lemma spacing_signs_witness :
  map_Forall (fun key v =>
                if String.prefix "-" key
                then (v <=? of_Z 0)%js = true
                else (of_Z 0 <=? v)%js = true)
    (createScaledSpacing (dec 13 1)).
Proof.
  apply (spacing_signs (dec 13 1)); reflexivity.
Defined.

End ThemeExtras.

(** ** More about the hook and the readers *)

Module HookExtras.

Import JS JSFacts MoreJSFacts Hooks Inputs HookFacts.

(** X10: [clamp] does not sanitise NaN: a NaN value or a NaN bound gives
    NaN, so a NaN reading is published as [fontScale = NaN] whatever the
    bounds are. *)
Theorem clamp_propagates_NaN :
  (forall v lo hi : number,
     clamp NaN lo hi = NaN /\ clamp v NaN hi = NaN /\ clamp v lo NaN = NaN) /\
  (forall (options : UseFontScaleOptions) (env : Platform) (r : FontScaleResult),
     (getNativeFontScale env).1 = Returns NaN ->
     (getFontScale options env).1 = Returns r ->
     fontScale r = NaN).
Proof.
  assert (forall v lo hi : number,
            clamp NaN lo hi = NaN /\ clamp v NaN hi = NaN /\ clamp v lo NaN = NaN)
    as Hclamp.
  { intros v lo hi. unfold clamp, Math_min, Math_max.
    rewrite !SFcompare_nan_r. by cbn. }
  split; [done|].
  intros options env r Hread Hr.
  apply getFontScale_result in Hr as (actual & cached & Ha & _ & -> & _).
  rewrite Hread in Ha. injection Ha as <-. apply (Hclamp NaN).
Qed.

Lemma clamp_propagates_NaN_witness :
  fontScale
    {| fontScale := NaN; fontScaleCorrection := NaN;
       cachedFontScale := of_Z 1; updateCount := None |} = NaN.
Proof.
  apply (proj2 clamp_propagates_NaN defaults
           {| Platform_OS := android;
              FontScaleModule :=
                Some {| native_getFontScale := Some (Returns NaN);
                        native_getFontScaleSync := None |};
              PixelRatio_getFontScale := Returns (of_Z 1) |});
    reflexivity.
Defined.

(** X11: on numbers [clamp] is idempotent and monotone in the value, for
    any bounds (ordered or not). *)
Theorem clamp_idempotent_monotone (v w lo hi : number) :
  is_number v = true -> is_number w = true ->
  is_number lo = true -> is_number hi = true ->
  (clamp (clamp v lo hi) lo hi === clamp v lo hi)%js = true /\
  ((v <=? w)%js = true -> (clamp v lo hi <=? clamp w lo hi)%js = true).
Proof.
  intros Hv Hw Hlo Hhi.
  destruct (clamp_spec v lo hi Hv Hlo Hhi) as [Hn Hm].
  destruct (clamp_spec w lo hi Hw Hlo Hhi) as [Hnw Hmw].
  destruct (clamp_spec _ lo hi Hn Hlo Hhi) as [Hn' Hm'].
  split.
  - apply strict_eq_mag; [done..|]. rewrite Hm', Hm. lia.
  - intros Hle%leb_mag; [|done..]. apply leb_mag; [done..|]. lia.
Qed.

Lemma clamp_idempotent_monotone_witness :
  (clamp (clamp (dec 35 1) (dec 8 1) (of_Z 2)) (dec 8 1) (of_Z 2)
   === clamp (dec 35 1) (dec 8 1) (of_Z 2))%js = true /\
  (clamp (dec 35 1) (dec 8 1) (of_Z 2) <=? clamp (of_Z 4) (dec 8 1) (of_Z 2))%js = true.
Proof.
  destruct (clamp_idempotent_monotone (dec 35 1) (of_Z 4) (dec 8 1) (of_Z 2))
    as [Hidem Hmono]; [reflexivity..|].
  split; [exact Hidem|]. apply Hmono. reflexivity.
Defined.

(** X12: building a result fails exactly when the cached read
    [PixelRatio.getFontScale()] throws, and then with that very error, even
    if the live native read succeeded; the hook renders nothing in exactly
    that case. *)
Theorem result_throws_iff_cached_read_throws
    (options : UseFontScaleOptions) (env mounted : Platform) (count : nat)
    (h : HookState) (events : list Event) (e : string) :
  ((initialState options env count).1 = Throws e <->
   PixelRatio_getFontScale env = Throws e) /\
  ((updateFontScale options env h).1 = Throws e <->
   PixelRatio_getFontScale env = Throws e) /\
  ((getFontScale options env).1 = Throws e <->
   PixelRatio_getFontScale env = Throws e) /\
  (useFontScale options env mounted count events = [] <->
   exists e', PixelRatio_getFontScale env = Throws e').
Proof.
  rewrite initialState_outcome, updateFontScale_outcome, getFontScale_outcome.
  unfold useFontScale, mount. rewrite initialState_outcome.
  pose proof (getNativeFontScale_throws env) as Hlive.
  pose proof (getFontScaleSync_throws env) as Hsync.
  destruct (getNativeFontScale env).1 as [live|e1],
           (getFontScaleSync env).1 as [sync|e2],
           (PixelRatio_getFontScale env) as [cached|e3];
    try pose proof (Hlive _ eq_refl); try pose proof (Hsync _ eq_refl);
    clear Hlive Hsync; simplify_eq; cbn;
    repeat split; try (intros [? ?]); intros; simplify_eq; eauto.
Qed.

Lemma result_throws_iff_cached_read_throws_witness :
  (getFontScale defaults
     {| Platform_OS := android;
        FontScaleModule :=
          Some {| native_getFontScale := Some (Returns (dec 13 1));
                  native_getFontScaleSync := Some (Returns (dec 13 1)) |};
        PixelRatio_getFontScale := Throws "PixelRatio failed" |}).1
  = Throws "PixelRatio failed" /\
  useFontScale defaults
     {| Platform_OS := android;
        FontScaleModule :=
          Some {| native_getFontScale := Some (Returns (dec 13 1));
                  native_getFontScaleSync := Some (Returns (dec 13 1)) |};
        PixelRatio_getFontScale := Throws "PixelRatio failed" |}
     (stale (of_Z 1)) 0 [] = [].
Proof.
  destruct (result_throws_iff_cached_read_throws defaults
              {| Platform_OS := android;
                 FontScaleModule :=
                   Some {| native_getFontScale := Some (Returns (dec 13 1));
                           native_getFontScaleSync := Some (Returns (dec 13 1)) |};
                 PixelRatio_getFontScale := Throws "PixelRatio failed" |}
              (stale (of_Z 1))
              0 {| state := {| fontScale := of_Z 1; fontScaleCorrection := of_Z 1;
                               cachedFontScale := of_Z 1; updateCount := Some 0%nat |};
                   globalUpdateCount := 0 |}
              [] "PixelRatio failed")
    as (_ & _ & Hget & Hhook).
  split; [by apply Hget|]. apply Hhook. by eexists.
Defined.

(* The published counter is the module-level one. *)
Local Abbreviation counter_in_step h :=
  (updateCount (state h) = Some (globalUpdateCount h)).

Lemma settle_counter options env h :
  counter_in_step h ->
  counter_in_step (settle h (updateFontScale options env h)) /\
  (settle h (updateFontScale options env h) = h \/
   globalUpdateCount (settle h (updateFontScale options env h)) = S (globalUpdateCount h)).
Proof.
  intros Hh. unfold settle. rewrite updateFontScale_outcome.
  destruct (getNativeFontScale env).1, (PixelRatio_getFontScale env); cbn; eauto.
Qed.

Lemma handle_counter options h ev :
  counter_in_step h ->
  counter_in_step (handle options h ev) /\
  (handle options h ev = h \/
   globalUpdateCount (handle options h ev) = S (globalUpdateCount h)).
Proof.
  intros Hh. destruct ev as [next env|env]; cbn [handle].
  - destruct (_ && _); [by apply settle_counter|eauto].
  - destruct (listenToDimensions_of options); [by apply settle_counter|eauto].
Qed.

Lemma counter_step_results h h' (bound : nat) :
  counter_in_step h -> counter_in_step h' ->
  (S (globalUpdateCount h) <= bound)%nat ->
  h' = h \/ globalUpdateCount h' = S (globalUpdateCount h) ->
  state h' = state h \/
  exists n, updateCount (state h) = Some n /\ updateCount (state h') = Some (S n) /\
            (S n <= bound)%nat.
Proof.
  intros Hh Hh' Hbound [->|Hs]; [by left|right].
  exists (globalUpdateCount h). by rewrite Hh, Hh', Hs.
Qed.

Lemma states_after_counter options h events (bound : nat) :
  counter_in_step h ->
  (globalUpdateCount h + length events <= bound)%nat ->
  Forall (fun '(r, r') =>
            r' = r \/
            exists n, updateCount r = Some n /\ updateCount r' = Some (S n) /\
                      (S n <= bound)%nat)
    (zip (state h :: states_after options h events) (states_after options h events)).
Proof.
  revert h. induction events as [|ev events IH]; intros h Hh Hbound; [by constructor|].
  cbn [states_after zip zip_with length] in *.
  destruct (handle_counter options h ev Hh) as [Hh' Hstep].
  constructor; [apply counter_step_results; [done..|lia|done]|].
  apply IH; [done|]. destruct Hstep as [Heq|Heq]; rewrite Heq; lia.
Qed.

(** X13: for one mounted instance of the hook (the counter is module-level
    and this instance is the only one to advance it) and as long as the
    counter stays below 2^53, where [++] on a double is exact: the first
    result carries the counter as it was at mount, and from one published
    result to the next either nothing changes or [updateCount] grows by
    exactly one, to a value that is still below 2^53. *)
Theorem updateCount_steps
    (options : UseFontScaleOptions) (env mounted : Platform) (count : nat)
    (events : list Event) :
  Z.of_nat count + 1 + Z.of_nat (length events) < 2 ^ 53 ->
  let trace := useFontScale options env mounted count events in
  from_option (fun r => updateCount r = Some count) True (head trace) /\
  Forall (fun '(r, r') =>
            r' = r \/
            exists n, updateCount r = Some n /\ updateCount r' = Some (S n) /\
                      Z.of_nat (S n) < 2 ^ 53)
    (zip trace (tail trace)).
Proof.
  intros Hbound. unfold useFontScale, mount. rewrite initialState_outcome.
  destruct (getFontScaleSync env).1 as [actual|e]; [|by split; constructor].
  destruct (PixelRatio_getFontScale env) as [cached|e] eqn:Hcached;
    [|by split; constructor].
  cbn beta iota zeta.
  match goal with
  | |- context [ {| state := ?st; globalUpdateCount := count |} ] =>
      set (h0 := {| state := st; globalUpdateCount := count |})
  end.
  match goal with
  | |- context [ if listenToAppState_of options then ?a else ?b ] =>
      set (h1 := if listenToAppState_of options then a else b)
  end.
  assert (counter_in_step h0) as H0 by done.
  assert (counter_in_step h1 /\
          (h1 = h0 \/ globalUpdateCount h1 = S (globalUpdateCount h0))) as [H1 Hstep].
  { unfold h1. destruct (listenToAppState_of options); [by apply settle_counter|eauto]. }
  split; [done|].
  cbn [tail zip zip_with].
  eapply Forall_impl with
    (P := fun '(r, r') =>
            r' = r \/
            exists n, updateCount r = Some n /\ updateCount r' = Some (S n) /\
                      (S n <= count + 1 + length events)%nat).
  - constructor.
    + apply counter_step_results; [done..|cbn; lia|done].
    + apply states_after_counter; [done|].
      destruct Hstep as [Heq|Heq]; rewrite Heq; cbn; lia.
  - intros [r r'] [Hsame|(n & Hr & Hr' & Hn)]; [by left|right].
    exists n. split; [done|]. split; [done|]. lia.
Qed.

Lemma updateCount_steps_witness :
  let trace :=
    useFontScale defaults (stale (of_Z 1)) (stale (dec 115 2)) 0
      [AppStateChange "active" (stale (dec 35 1)); DimensionChange (stale (dec 13 1))] in
  from_option (fun r => updateCount r = Some 0%nat) True (head trace) /\
  Forall (fun '(r, r') =>
            r' = r \/
            exists n, updateCount r = Some n /\ updateCount r' = Some (S n) /\
                      Z.of_nat (S n) < 2 ^ 53)
    (zip trace (tail trace)).
Proof.
  apply (updateCount_steps defaults (stale (of_Z 1)) (stale (dec 115 2)) 0
           [AppStateChange "active" (stale (dec 35 1)); DimensionChange (stale (dec 13 1))]).
  reflexivity.
Defined.

(** X14: an update whose cached read throws changes neither the published
    state nor the counter, even when the live native read succeeded. *)
Theorem failed_update_keeps_state
    (options : UseFontScaleOptions) (h : HookState) (ev : Event) (e : string) :
  PixelRatio_getFontScale (event_platform ev) = Throws e ->
  handle options h ev = h.
Proof.
  intros Hthrow.
  assert (settle h (updateFontScale options (event_platform ev) h) = h) as Hsettle.
  { unfold settle. rewrite updateFontScale_outcome, Hthrow.
    by destruct (getNativeFontScale _).1. }
  destruct ev as [next env|env]; cbn [handle event_platform] in *.
  - by destruct (_ && _).
  - by destruct (listenToDimensions_of options).
Qed.

Lemma failed_update_keeps_state_witness :
  handle defaults
    {| state := {| fontScale := of_Z 1; fontScaleCorrection := of_Z 1;
                   cachedFontScale := of_Z 1; updateCount := Some 3%nat |};
       globalUpdateCount := 3 |}
    (DimensionChange
       {| Platform_OS := android;
          FontScaleModule :=
            Some {| native_getFontScale := Some (Returns (dec 13 1));
                    native_getFontScaleSync := None |};
          PixelRatio_getFontScale := Throws "PixelRatio failed" |})
  = {| state := {| fontScale := of_Z 1; fontScaleCorrection := of_Z 1;
                   cachedFontScale := of_Z 1; updateCount := Some 3%nat |};
       globalUpdateCount := 3 |}.
Proof.
  apply (failed_update_keeps_state defaults _ _ "PixelRatio failed"). reflexivity.
Defined.

Lemma states_after_unchanged options h events :
  (forall ev, ev ∈ events -> handle options h ev = h) ->
  states_after options h events = replicate (length events) (state h).
Proof.
  induction events as [|ev events IH]; intros Hall; [done|].
  cbn [states_after length replicate].
  rewrite (Hall ev) by apply list_elem_of_here.
  f_equal. apply IH. intros ev' Hin. by apply Hall, list_elem_of_further.
Qed.

(** X15: with [listenToAppState: false] the update on mount is skipped as
    well, and with both listeners off the hook publishes its initial state
    for ever. *)
Theorem no_listeners_no_updates
    (options : UseFontScaleOptions) (env mounted : Platform) (count : nat)
    (events : list Event) :
  listenToAppState_of options = false ->
  take 2 (useFontScale options env mounted count events) =
    match (initialState options env count).1 with
    | Returns st => [st; st]
    | Throws _ => []
    end /\
  (listenToDimensions_of options = false ->
   useFontScale options env mounted count events =
     match (initialState options env count).1 with
     | Returns st => replicate (2 + length events) st
     | Throws _ => []
     end).
Proof.
  intros Happ. unfold useFontScale, mount. rewrite Happ.
  destruct (initialState options env count).1 as [st|e]; [|done].
  split; [done|]. intros Hdim.
  rewrite states_after_unchanged; [done|].
  intros [next env'|env'] _; cbn [handle]; by rewrite ?Happ, ?Hdim.
Qed.

Lemma no_listeners_no_updates_witness :
  useFontScale
    {| minScale := None; maxScale := None;
       listenToDimensions := Some false; listenToAppState := Some false |}
    (stale (of_Z 1)) (stale (dec 13 1)) 0
    [AppStateChange "active" (stale (dec 13 1)); DimensionChange (stale (dec 13 1))]
  = replicate 4
      {| fontScale := of_Z 1; fontScaleCorrection := of_Z 1;
         cachedFontScale := of_Z 1; updateCount := Some 0%nat |}.
Proof.
  destruct (no_listeners_no_updates
              {| minScale := None; maxScale := None;
                 listenToDimensions := Some false; listenToAppState := Some false |}
              (stale (of_Z 1)) (stale (dec 13 1)) 0
              [AppStateChange "active" (stale (dec 13 1));
               DimensionChange (stale (dec 13 1))])
    as [_ Hall]; [reflexivity|].
  rewrite Hall by reflexivity. reflexivity.
Defined.


(** X17: what reaches the console.  The synchronous reader and the initial
    state write nothing, also when the native call throws; the asynchronous
    reader writes its warning exactly when, on Android, the module's method
    is present and rejects; an update writes its log line after that, and
    only when it completes. *)
Theorem console_output
    (options : UseFontScaleOptions) (env : Platform) (count : nat) (h : HookState) :
  (getFontScaleSync env).2 = [] /\
  (initialState options env count).2 = [] /\
  (getNativeFontScale env).2 =
    (if is_android (Platform_OS env) &&
        match FontScaleModule env ≫= native_getFontScale with
        | Some (Throws _) => true
        | _ => false
        end
     then [Warn "FontScaleModule.getFontScale() failed, falling back to PixelRatio:"]
     else []) /\
  (getFontScale options env).2 = (getNativeFontScale env).2 /\
  (updateFontScale options env h).2 =
    (getNativeFontScale env).2 ++
    match (updateFontScale options env h).1 with
    | Returns _ => [Log "[useFontScale] Actual:"]
    | Throws _ => []
    end.
Proof.
  destruct env as [os [[[[live|e1]|] [[sync|e2]|]]|] [cached|e3]];
    destruct os; repeat split; reflexivity.
Qed.

(** On an Android device with the Kotlin module linked both readers return
    what the module resolves and write nothing. *)
Lemma android_platform_readers ctx cached :
  getNativeFontScale (android_platform ctx cached)
    = (FontScaleModule_kt.getFontScale ctx, []) /\
  getFontScaleSync (android_platform ctx cached)
    = (FontScaleModule_kt.getFontScale ctx, []) /\
  exists v, FontScaleModule_kt.getFontScale ctx = Returns v.
Proof.
  unfold getNativeFontScale, getFontScaleSync, android_platform,
    FontScaleModule_kt.getFontScale, FontScaleModule_kt.getFontScaleSync,
    FontScaleModule_kt.readFontScale.
  destruct ctx as [[[activity|]|e] [resources|e']]; cbn; repeat split; eauto.
Qed.

(** X18: on an Android device with the Kotlin module linked, both readers
    return what the module resolves, write nothing and never consult the
    cached value; the module's two methods agree, never throw, prefer the
    current activity's configuration and use the application context only
    when there is no activity. *)
Theorem android_readers
    (ctx : FontScaleModule_kt.ReactApplicationContext) (cached : outcome number) :
  getNativeFontScale (android_platform ctx cached)
    = (FontScaleModule_kt.getFontScale ctx, []) /\
  getFontScaleSync (android_platform ctx cached)
    = (FontScaleModule_kt.getFontScale ctx, []) /\
  FontScaleModule_kt.getFontScaleSync ctx = FontScaleModule_kt.getFontScale ctx /\
  (exists v, FontScaleModule_kt.getFontScale ctx = Returns v) /\
  (forall v, FontScaleModule_kt.currentActivity_fontScale ctx = Returns (Some v) ->
             FontScaleModule_kt.getFontScale ctx = Returns v) /\
  (forall v, FontScaleModule_kt.currentActivity_fontScale ctx = Returns None ->
             FontScaleModule_kt.resources_fontScale ctx = Returns v ->
             FontScaleModule_kt.getFontScale ctx = Returns v).
Proof.
  unfold getNativeFontScale, getFontScaleSync, android_platform,
    FontScaleModule_kt.getFontScale, FontScaleModule_kt.getFontScaleSync,
    FontScaleModule_kt.readFontScale.
  destruct ctx as [[[activity|]|e] [resources|e']]; cbn;
    repeat split; eauto; intros; simplify_eq; done.
Qed.

Lemma android_readers_witness :
  FontScaleModule_kt.getFontScale
    {| FontScaleModule_kt.currentActivity_fontScale := Returns (Some (dec 13 1));
       FontScaleModule_kt.resources_fontScale := Throws "no resources" |}
  = Returns (dec 13 1) /\
  FontScaleModule_kt.getFontScale
    {| FontScaleModule_kt.currentActivity_fontScale := Returns None;
       FontScaleModule_kt.resources_fontScale := Returns (dec 115 2) |}
  = Returns (dec 115 2).
Proof.
  split.
  - destruct (android_readers
                {| FontScaleModule_kt.currentActivity_fontScale := Returns (Some (dec 13 1));
                   FontScaleModule_kt.resources_fontScale := Throws "no resources" |}
                (Returns (of_Z 1))) as (_ & _ & _ & _ & Hactivity & _).
    apply Hactivity. reflexivity.
  - destruct (android_readers
                {| FontScaleModule_kt.currentActivity_fontScale := Returns None;
                   FontScaleModule_kt.resources_fontScale := Returns (dec 115 2) |}
                (Returns (of_Z 1))) as (_ & _ & _ & _ & _ & Hresources).
    apply Hresources; reflexivity.
Defined.

(** X19: on such a device, when the module resolves the same scale and
    React Native reports the same cached scale at the first render and at
    the update run once mounted (the setting did not change in between), and
    the counter is below 2^53 - 1, that update republishes the initial
    scale, correction and cached scale; only [updateCount] changes, from the
    counter at mount to its successor. *)
Theorem mount_update_on_android
    (options : UseFontScaleOptions)
    (ctx ctx' : FontScaleModule_kt.ReactApplicationContext) (cached : outcome number)
    (count : nat) (events : list Event) (r0 r1 : FontScaleResult) :
  listenToAppState_of options = true ->
  FontScaleModule_kt.getFontScale ctx' = FontScaleModule_kt.getFontScale ctx ->
  Z.of_nat count + 1 < 2 ^ 53 ->
  take 2 (useFontScale options (android_platform ctx cached)
            (android_platform ctx' cached) count events) = [r0; r1] ->
  updateCount r0 = Some count /\
  r1 = {| fontScale := fontScale r0;
          fontScaleCorrection := fontScaleCorrection r0;
          cachedFontScale := cachedFontScale r0;
          updateCount := Some (S count) |}.
Proof.
  intros Happ Hsame _. unfold useFontScale, mount, settle.
  rewrite Happ, initialState_outcome.
  destruct (android_platform_readers ctx cached) as (_ & -> & [v Hv]).
  destruct (android_platform_readers ctx' cached) as (Hlive & _).
  rewrite Hsame in Hlive. rewrite Hv in *.
  cbn [fst android_platform PixelRatio_getFontScale].
  destruct cached as [c|e]; [|done].
  cbn beta iota zeta. rewrite updateFontScale_outcome, Hlive.
  cbn. by intros [= <- <-].
Qed.

Lemma mount_update_on_android_witness :
  updateCount
    {| fontScale := dec 13 1; fontScaleCorrection := dec 13 1;
       cachedFontScale := of_Z 1; updateCount := Some 0%nat |} = Some 0%nat /\
  {| fontScale := dec 13 1; fontScaleCorrection := dec 13 1;
     cachedFontScale := of_Z 1; updateCount := Some 1%nat |}
  = {| fontScale := dec 13 1; fontScaleCorrection := dec 13 1;
       cachedFontScale := of_Z 1; updateCount := Some 1%nat |}.
Proof.
  apply (mount_update_on_android defaults
           {| FontScaleModule_kt.currentActivity_fontScale := Returns (Some (dec 13 1));
              FontScaleModule_kt.resources_fontScale := Returns (dec 13 1) |}
           {| FontScaleModule_kt.currentActivity_fontScale := Returns None;
              FontScaleModule_kt.resources_fontScale := Returns (dec 13 1) |}
           (Returns (of_Z 1)) 0 []
           {| fontScale := dec 13 1; fontScaleCorrection := dec 13 1;
              cachedFontScale := of_Z 1; updateCount := Some 0%nat |}
           {| fontScale := dec 13 1; fontScaleCorrection := dec 13 1;
              cachedFontScale := of_Z 1; updateCount := Some 1%nat |});
    reflexivity.
Defined.

End HookExtras.

(** ** The themes the provider builds *)

Module ProviderExtras.

Import JS JSFacts MoreJSFacts Theme ThemeFacts Hooks Inputs HookFacts ThemeProvider.

(** A variant's font size and line height grow with the scale factor. *)
Lemma variant_monotone b c m s1 s2 :
  is_finite b = true -> is_finite c = true -> is_finite m = true ->
  (of_Z 0 <=? b)%js = true -> (of_Z 0 <=? c)%js = true -> (of_Z 0 <=? m)%js = true ->
  is_finite (applyScale b c c) = true ->
  is_number s1 = true -> is_number s2 = true ->
  (of_Z 0 <=? s1)%js = true -> (s1 <=? s2)%js = true ->
  (applyScale b s1 c <=? applyScale b s2 c)%js = true /\
  (Math_round (applyScale b s1 c * m) <=? Math_round (applyScale b s2 c * m))%js = true.
Proof.
  intros Hb Hc Hm Hb0 Hc0 Hm0 Hcap Hs1 Hs2 Hs10 Hle.
  assert ((of_Z 0 <=? s2)%js = true) as Hs20.
  { by apply (leb_trans _ s1). }
  destruct (applyScale_finite_nonneg b s1 c) as (Hy1 & Hf1 & _); [done..|].
  destruct (applyScale_finite_nonneg b s2 c) as (Hy2 & Hf2 & _); [done..|].
  assert ((applyScale b s1 c <=? applyScale b s2 c)%js = true) as Hsize.
  { unfold applyScale. apply Math_round_mono; [done..|].
    pose proof (is_finite_is_number _ Hc) as Hnc.
    destruct (Math_min_nonneg s1 c) as [Hmin1 _]; [done..|].
    destruct (Math_min_nonneg s2 c) as [Hmin2 _]; [done..|].
    apply mul_mono; [done..|]. by apply Math_min_mono. }
  split; [done|].
  destruct (mul_spec (applyScale b s1 c) m Hf1 Hm) as [Hn1 _].
  destruct (mul_spec (applyScale b s2 c) m Hf2 Hm) as [Hn2 _].
  apply Math_round_mono; [done..|]. by apply mul_mono_l.
Qed.

Local Ltac variant_pair :=
  split; [reflexivity|];
  cbn [snd fontSize lineHeight createScaledFontSizes xs sm md lg xl
       _2xl _3xl _4xl _5xl _6xl];
  match goal with
  | |- (applyScale ?b _ ?c <=? _)%js = true /\
       (Math_round (_ * ?m) <=? _)%js = true =>
      apply (variant_monotone b c m);
      [by vm_compute|by vm_compute|by vm_compute|by vm_compute|by vm_compute
      |by vm_compute|by vm_compute|assumption..]
  end.

Lemma textVariants_monotone s1 s2 :
  is_number s1 = true -> is_number s2 = true ->
  (of_Z 0 <=? s1)%js = true -> (s1 <=? s2)%js = true ->
  Forall2 (fun v1 v2 : string * TextVariant =>
             v1.1 = v2.1 /\
             (fontSize v1.2 <=? fontSize v2.2)%js = true /\
             (lineHeight v1.2 <=? lineHeight v2.2)%js = true)
    (textVariants (createScaledTheme s1)) (textVariants (createScaledTheme s2)).
Proof.
  intros Hs1 Hs2 Hs10 Hle. unfold createScaledTheme. cbn [textVariants].
  repeat (constructor; [variant_pair|]).
  constructor.
Qed.

(** X20: with numbers [0 <= minScale <= maxScale] as bounds, every theme
    [ScaledThemeProvider] builds from a result of the hook has each text
    variant's font size and line height between those of the theme at
    [minScale] and those of the theme at [maxScale]. *)
Theorem provided_theme_between_bounds
    (options : UseFontScaleOptions) (env mounted : Platform) (count : nat)
    (events : list Event) :
  is_number (minScale_of options) = true ->
  is_number (maxScale_of options) = true ->
  (of_Z 0 <=? minScale_of options)%js = true ->
  (minScale_of options <=? maxScale_of options)%js = true ->
  forallb readings_are_numbers (env :: mounted :: (event_platform <$> events)) = true ->
  Forall (fun r : FontScaleResult =>
            let between lower upper :=
              Forall2 (fun v1 v2 : string * TextVariant =>
                         v1.1 = v2.1 /\
                         (fontSize v1.2 <=? fontSize v2.2)%js = true /\
                         (lineHeight v1.2 <=? lineHeight v2.2)%js = true)
                (textVariants lower) (textVariants upper) in
            between (createScaledTheme (minScale_of options)) (ScaledThemeProvider r).2 /\
            between (ScaledThemeProvider r).2 (createScaledTheme (maxScale_of options)))
    (useFontScale options env mounted count events).
Proof.
  intros Hlo Hhi Hlo0 Hle Hok.
  pose proof (useFontScale_clamps options
                (fun env' => readings_are_numbers env' = true)
                env mounted count events) as Hall.
  eapply Forall_impl; [apply Hall|].
  - apply Forall_forall. intros env' Hin.
    rewrite forallb_forall in Hok. apply Hok. by apply list_elem_of_In.
  - intros r (env' & s & Hnum & Hread & Hr).
    pose proof (native_reading_is_number env' s Hnum Hread) as Hs.
    destruct (clamp_spec s _ _ Hs Hlo Hhi) as [Hn _].
    destruct (clamp_bounds s _ _ Hs Hlo Hhi Hle) as (Hb1 & Hb2 & _).
    rewrite <- Hr in Hn, Hb1, Hb2.
    cbn [ScaledThemeProvider snd]. split.
    + by apply textVariants_monotone.
    + apply textVariants_monotone; [done..| |done]. by apply (leb_trans _ (minScale_of options)).
Qed.

Lemma provided_theme_between_bounds_witness :
  Forall (fun r : FontScaleResult =>
            let between lower upper :=
              Forall2 (fun v1 v2 : string * TextVariant =>
                         v1.1 = v2.1 /\
                         (fontSize v1.2 <=? fontSize v2.2)%js = true /\
                         (lineHeight v1.2 <=? lineHeight v2.2)%js = true)
                (textVariants lower) (textVariants upper) in
            between (createScaledTheme (minScale_of defaults)) (ScaledThemeProvider r).2 /\
            between (ScaledThemeProvider r).2 (createScaledTheme (maxScale_of defaults)))
    (useFontScale defaults (stale (of_Z 1)) (stale (dec 115 2)) 0
       [AppStateChange "active" (stale (dec 35 1)); DimensionChange (stale (dec 13 1))]).
Proof.
  apply (provided_theme_between_bounds defaults (stale (of_Z 1)) (stale (dec 115 2)) 0
           [AppStateChange "active" (stale (dec 35 1)); DimensionChange (stale (dec 13 1))]);
    reflexivity.
Defined.

End ProviderExtras.
